(** * User Engagement Dashboard: a shallow embedding of the pipeline

    The program is one straight-line script, [user_engagement_dashboard.py]:
    load a CSV, normalise the column names, impute the known numeric columns
    with their means, drop duplicate rows, filter by the selected courses,
    aggregate per course, draw the charts and print the insights.

    Modelling conventions.
    - A cell is missing ([VNaN]), a number ([VNum], an exact rational
      standing for the float the library holds) or a string ([VStr]).
    - A [DataFrame] is its list of column labels and its list of rows; the
      row index labels are not modelled.  A Series is the list of its values;
      the result of a group-by is a list of (key, value) entries.
    - A Python exception ends the script; fallible steps return [option] and
      [None] stands for the exception named in the comment.
    - Library calls follow the documented behaviour of pandas (before
      copy-on-write, where the in-place [fillna] of a selected column writes
      through to the frame, as the script's comment intends) and matplotlib.
    - The labels of a frame are taken to be pairwise distinct, as the CSV
      reader delivers them, so that [df[name]] is one column; the renaming
      of step 2 can make two labels collide, and the statements that follow
      a raw frame through the script (the imputation, the charts, the
      default run) ask for labels that stay distinct.
    - The library's default sort is not stable.  The model has to place
      equal keys somehow; the general statements about sorted results do
      not rest on where it places them.
    - Characters are the code points below 256. *)

From Stdlib Require Import List String Ascii Bool Arith Lia ZArith QArith.
From Stdlib Require Import Qabs Lqa.
From Stdlib Require Import Sorted Permutation SetoidList SetoidPermutation.
Import ListNotations.

Local Open Scope string_scope.
Local Open Scope list_scope.

(** ** Python strings: [str.strip] and [str.lower] *)

(** [str.isspace] on one character: TAB, LF, VT, FF, CR, the separators
    1C..1F, SPACE, NEL (85) and NBSP (A0). *)
Definition is_space (c : ascii) : bool :=
  let n := nat_of_ascii c in
  (((9 <=? n) && (n <=? 13)) || ((28 <=? n) && (n <=? 32))
   || (n =? 133) || (n =? 160))%nat.

(** [str.lower] on one character: A..Z, and the upper-case letters C0..DE
    except the multiplication sign D7, move up by 32. *)
Definition lower_char (c : ascii) : ascii :=
  let n := nat_of_ascii c in
  if (((65 <=? n) && (n <=? 90))
      || ((192 <=? n) && (n <=? 222) && negb (n =? 215)))%nat
  then ascii_of_nat (n + 32)%nat else c.

Fixpoint lower (s : string) : string :=
  match s with
  | EmptyString => EmptyString
  | String c s' => String (lower_char c) (lower s')
  end.

Fixpoint lstrip (s : string) : string :=
  match s with
  | EmptyString => EmptyString
  | String c s' => if is_space c then lstrip s' else s
  end.

Fixpoint rstrip (s : string) : string :=
  match s with
  | EmptyString => EmptyString
  | String c s' =>
      match rstrip s' with
      | EmptyString => if is_space c then EmptyString else String c EmptyString
      | r => String c r
      end
  end.

Definition strip (s : string) : string := rstrip (lstrip s).

(** ** Cells, rows and frames *)

Inductive value : Type :=
| VNaN
| VNum (q : Q)
| VStr (s : string).

Definition row := list value.

Record DataFrame : Type := mkDF {
  columns : list string;
  rows : list row
}.

(** Equality of cells as the library's hash tables see it ([duplicated],
    [unique], [isin], group keys): a missing cell equals a missing cell,
    numbers compare by value. *)
Definition value_eqb (a b : value) : bool :=
  match a, b with
  | VNaN, VNaN => true
  | VNum p, VNum q => Qeq_bool p q
  | VStr s, VStr t => String.eqb s t
  | _, _ => false
  end.

Inductive value_eq : value -> value -> Prop :=
| veq_nan : value_eq VNaN VNaN
| veq_num p q : p == q -> value_eq (VNum p) (VNum q)
| veq_str s : value_eq (VStr s) (VStr s).

Fixpoint row_eqb (r1 r2 : row) : bool :=
  match r1, r2 with
  | [], [] => true
  | a :: r1', b :: r2' => value_eqb a b && row_eqb r1' r2'
  | _, _ => false
  end.

Definition row_eq : row -> row -> Prop := Forall2 value_eq.

Definition is_missing (v : value) : bool :=
  match v with VNaN => true | _ => false end.

Definition is_numeric (v : value) : bool :=
  match v with VStr _ => false | _ => true end.

(** ** The pandas operations the script calls *)

Fixpoint index_of (name : string) (cols : list string) : option nat :=
  match cols with
  | [] => None
  | c :: cs =>
      if String.eqb name c then Some 0%nat
      else option_map S (index_of name cs)
  end.

Definition in_columns (name : string) (df : DataFrame) : bool :=
  existsb (String.eqb name) (columns df).

Definition cell (i : nat) (r : row) : value := nth i r VNaN.

Definition column_at (i : nat) (df : DataFrame) : list value :=
  map (cell i) (rows df).

(** [df[name]]: the Series of one column; [None] is KeyError.  The
    look-up is that of a label that occurs once.  Under a label that occurs
    twice the library selects a frame of two columns, not a Series, and
    the calls that follow behave differently; the model then takes the
    first of the columns, and the statements that run the script on a raw
    frame assume labels that stay distinct. *)
Definition getitem (df : DataFrame) (name : string) : option (list value) :=
  option_map (fun i => column_at i df) (index_of name (columns df)).

(** [df.rename(columns=f, inplace=True)] *)
Definition rename (f : string -> string) (df : DataFrame) : DataFrame :=
  mkDF (map f (columns df)) (rows df).

(** The numbers of a Series, missing cells skipped; [None] is the TypeError
    raised on a string cell. *)
Fixpoint numbers (s : list value) : option (list Q) :=
  match s with
  | [] => Some []
  | VNaN :: s' => numbers s'
  | VNum q :: s' => option_map (cons q) (numbers s')
  | VStr _ :: _ => None
  end.

Definition Qsum (l : list Q) : Q := fold_right Qplus 0 l.

Definition Qmean (l : list Q) : Q := Qsum l / inject_Z (Z.of_nat (length l)).

(** [Series.mean()]: the mean of the cells that are not missing, missing
    when there is none. *)
Definition series_mean (s : list value) : option value :=
  match numbers s with
  | None => None
  | Some [] => Some VNaN
  | Some l => Some (VNum (Qmean l))
  end.

Definition fillna (v x : value) : value :=
  match x with
  | VNaN => v
  | _ => x
  end.

Fixpoint update_nth {A : Type} (i : nat) (f : A -> A) (l : list A) : list A :=
  match l, i with
  | [], _ => []
  | x :: l', O => f x :: l'
  | x :: l', S i' => x :: update_nth i' f l'
  end.

Definition fillna_at (i : nat) (v : value) (df : DataFrame) : DataFrame :=
  mkDF (columns df) (map (update_nth i (fillna v)) (rows df)).

(** The first occurrence of every element, in order of appearance: the
    hash-table pass behind [duplicated(keep='first')] and [unique]. *)
Fixpoint keep_first {A : Type} (eqb : A -> A -> bool) (seen l : list A)
  : list A :=
  match l with
  | [] => []
  | x :: l' =>
      if existsb (eqb x) seen then keep_first eqb seen l'
      else x :: keep_first eqb (x :: seen) l'
  end.

(** [df.drop_duplicates(inplace=True)]: a row is kept when no earlier row
    equals it on every column. *)
Definition drop_duplicates (df : DataFrame) : DataFrame :=
  mkDF (columns df) (keep_first row_eqb [] (rows df)).

(** [Series.unique()]: distinct values in order of first appearance, the
    missing value included. *)
Definition unique (s : list value) : list value := keep_first value_eqb [] s.

(** [Series.isin(values)] on one cell. *)
Definition isin (values : list value) (v : value) : bool :=
  existsb (value_eqb v) values.

(** [df[mask]]: the rows whose mask entry is true. *)
Fixpoint select_mask {A : Type} (mask : list bool) (l : list A) : list A :=
  match mask, l with
  | b :: mask', x :: l' =>
      if b then x :: select_mask mask' l' else select_mask mask' l'
  | _, _ => []
  end.

(** [df.empty]: some axis has length zero. *)
Definition empty (df : DataFrame) : bool :=
  match rows df, columns df with
  | [], _ => true
  | _, [] => true
  | _, _ => false
  end.

(** [df.head()] *)
Definition head (df : DataFrame) : DataFrame :=
  mkDF (columns df) (firstn 5 (rows df)).

(** The order the library sorts by: numbers by value, before strings;
    strings by code point; the missing value after everything. *)
Definition value_leb (a b : value) : bool :=
  match a, b with
  | _, VNaN => true
  | VNaN, _ => false
  | VNum p, VNum q => Qle_bool p q
  | VNum _, VStr _ => true
  | VStr _, VNum _ => false
  | VStr s, VStr t => String.leb s t
  end.

(** The sort behind [sort_values] and the ordering of group keys.  The
    library's default sort (quicksort) promises a sorted rearrangement of
    its input and nothing on the order of equal elements.  The model sorts
    by insertion, one of the orders that promise allows; the theorems
    about a sorted result rest on the rearrangement and the sortedness
    only, not on the place of an element among its equals. *)
Fixpoint insert_sorted {A : Type} (leb : A -> A -> bool) (x : A) (l : list A)
  : list A :=
  match l with
  | [] => [x]
  | y :: l' => if leb x y then x :: l else y :: insert_sorted leb x l'
  end.

Fixpoint insertion_sort {A : Type} (leb : A -> A -> bool) (l : list A) : list A :=
  match l with
  | [] => []
  | x :: l' => insert_sorted leb x (insertion_sort leb l')
  end.

(** A Series with its index: (label, value) entries. *)
Definition entry := (value * value)%type.

(** Sorting by a key as the library's [nargsort] does it: the elements
    with a missing key are set aside and appended; for a descending sort
    the rest is reversed, sorted ascending and reversed again.  Elements
    with equal keys come out in the order the sort above gives them, which
    need not be the library's. *)
Definition sort_by {A : Type} (key : A -> value) (ascending : bool)
  (l : list A) : list A :=
  let non_nans := filter (fun e => negb (is_missing (key e))) l in
  let nans := filter (fun e => is_missing (key e)) l in
  let leb := fun a b => value_leb (key a) (key b) in
  (if ascending then insertion_sort leb non_nans
   else rev (insertion_sort leb (rev non_nans))) ++ nans.

(** [Series.sort_values(ascending=...)] *)
Definition sort_values (ascending : bool) (s : list entry) : list entry :=
  sort_by snd ascending s.

(** The keys of [groupby(by)]: the distinct values that are not missing,
    sorted. *)
Definition group_keys (keys : list value) : list value :=
  insertion_sort value_leb
    (unique (filter (fun k => negb (is_missing k)) keys)).

(** The values of the rows of one group. *)
Definition group_values (k : value) (keys vals : list value) : list value :=
  map snd (filter (fun p => value_eqb (fst p) k) (combine keys vals)).

Fixpoint sequence {A : Type} (l : list (option A)) : option (list A) :=
  match l with
  | [] => Some []
  | None :: _ => None
  | Some x :: l' => option_map (cons x) (sequence l')
  end.

(** [df.groupby(by)[col].mean()]; [None] is the KeyError of a missing
    column or the TypeError of a column that holds strings. *)
Definition groupby_mean (df : DataFrame) (by_ col : string)
  : option (list entry) :=
  match getitem df by_, getitem df col with
  | Some keys, Some vals =>
      match numbers vals with
      | None => None
      | Some _ =>
          sequence
            (map (fun k => option_map (pair k)
                             (series_mean (group_values k keys vals)))
                 (group_keys keys))
      end
  | _, _ => None
  end.

(** The first entry with the greatest value among those after [best],
    missing values skipped. *)
Fixpoint first_max (best : option (value * Q)) (s : list entry)
  : option (value * Q) :=
  match s with
  | [] => best
  | (k, VNum q) :: s' =>
      match best with
      | None => first_max (Some (k, q)) s'
      | Some (_, b) =>
          if Qle_bool q b then first_max best s'
          else first_max (Some (k, q)) s'
      end
  | _ :: s' => first_max best s'
  end.

(** [Series.idxmax()]: the label of the first greatest value; the missing
    label when every value is missing; [None] is the ValueError raised on
    an empty Series. *)
Definition idxmax (s : list entry) : option value :=
  match s with
  | [] => None
  | _ =>
      match first_max None s with
      | Some (k, _) => Some k
      | None => Some VNaN
      end
  end.

(** Python's [==] on cells: a missing value equals nothing. *)
Definition py_eqb (a b : value) : bool :=
  match a, b with
  | VNaN, _ | _, VNaN => false
  | _, _ => value_eqb a b
  end.

(** [sep.join(items)]; [None] is the TypeError raised on an item that is
    not a string. *)
Fixpoint join (sep : string) (items : list value) : option string :=
  match items with
  | [] => Some ""
  | VStr s :: [] => Some s
  | VStr s :: items' => option_map (fun r => (s ++ sep ++ r)%string) (join sep items')
  | _ :: _ => None
  end.

(** ** The matplotlib pie *)

(** Rounding to the nearest integer, ties to even. *)
Definition round_half_even (q : Q) : Z :=
  let n := Qnum q in
  let d := Zpos (Qden q) in
  let f := (n / d)%Z in
  let r := (n mod d)%Z in
  match (2 * r ?= d)%Z with
  | Lt => f
  | Gt => (f + 1)%Z
  | Eq => if Z.even f then f else (f + 1)%Z
  end.

(** The number printed by the format ['%1.1f'] for a percentage. *)
Definition autopct (pct : Q) : Q := round_half_even (10 * pct) # 10.

Record wedge : Type := mkWedge {
  wedge_label : value;
  wedge_frac : Q;
  wedge_pct : Q
}.

(** The wedge sizes accepted by [pie]: numbers that are not negative. *)
Fixpoint wedge_sizes (x : list entry) : option (list Q) :=
  match x with
  | [] => Some []
  | (_, VNum q) :: x' =>
      if Qle_bool 0 q then option_map (cons q) (wedge_sizes x') else None
  | _ :: _ => None
  end.

(** [plt.pie(x, labels=x.index, autopct='%1.1f%%')]: every wedge takes the
    fraction [x / sum(x)] of the disc and is labelled with that percentage.
    [None] is the ValueError raised on a negative or missing size, or on
    sizes whose sum is zero, which an empty Series has. *)
Definition pie (x : list entry) : option (list wedge) :=
  match wedge_sizes x with
  | None => None
  | Some sizes =>
      let sx := Qsum sizes in
      if Qeq_bool sx 0 then None
      else Some (map (fun e => let frac := snd e / sx in
                               mkWedge (fst e) frac (autopct (100 * frac)))
                     (combine (map fst x) sizes))
  end.

(** ** Steps 2 and 3 of the script: the cleaner *)

Definition normalize (x : string) : string := lower (strip x).

(** Step 2: [df.rename(columns=lambda x: x.strip().lower(), inplace=True)] *)
Definition clean_column_names (df : DataFrame) : DataFrame :=
  rename normalize df.

Definition all_numeric_cols : list string :=
  ["sessionsperweek"; "coursecompletion"; "usersatisfaction"; "quizscore"].

Definition numeric_cols_of (df : DataFrame) : list string :=
  filter (fun col => in_columns col df) all_numeric_cols.

(** [df[col].fillna(df[col].mean(), inplace=True)]: the mean is taken
    first, then the missing cells of the column are overwritten in the
    frame.  [None] is the TypeError of a mean over strings. *)
Definition impute (df : DataFrame) (col : string) : option DataFrame :=
  match index_of col (columns df) with
  | None => None
  | Some i =>
      match series_mean (column_at i df) with
      | None => None
      | Some m => Some (fillna_at i m df)
      end
  end.

(** [for col in numeric_cols: ...] *)
Fixpoint impute_all (cols : list string) (df : DataFrame) : option DataFrame :=
  match cols with
  | [] => Some df
  | col :: cols' =>
      match impute df col with
      | None => None
      | Some df' => impute_all cols' df'
      end
  end.

(** The frame just before [df.drop_duplicates]. *)
Definition imputed (raw : DataFrame) : option DataFrame :=
  let df := clean_column_names raw in
  impute_all (numeric_cols_of df) df.

(** Steps 2 and 3 together. *)
Definition clean (raw : DataFrame) : option DataFrame :=
  option_map drop_duplicates (imputed raw).

(** ** What the script shows *)

Inductive chart : Type :=
| Heatmap (cols : list string)
| Scatter (points : list (value * value * value))
| Line (lines : list (value * list (value * value)))
| Pie (wedges : list wedge).

Inductive insight : Type :=
| TopSessions (course : value)
| TopCompletion (course : value)
| ClosingRemark.

Inductive event : Type :=
| Subheader (text : string)
| Dataframe (data : DataFrame)
| Write (text : string)
| BarChart (data : list entry)
| Pyplot (c : chart)
| Info (text : string)
| Warning (text : string)
| Markdown (m : insight).

Inductive chart_kind : Type := ScatterPlot | LineChart | PieChart.

Notation "x <- c ;; k" :=
  (match c with Some x => k | None => None end)
  (at level 61, c at next level, right associativity).

Definition mem (x : string) (l : list string) : bool :=
  existsb (String.eqb x) l.

(** ** Step 4: the course filter *)

(** [courses = df['coursename'].unique()] *)
Definition courses (df : DataFrame) : option (list value) :=
  option_map unique (getitem df "coursename").

(** Lines 57 to 60: the rows of the selected courses, or the whole frame
    when nothing is selected. *)
Definition filter_courses (df : DataFrame) (selected_courses : list value)
  : option DataFrame :=
  match selected_courses with
  | _ :: _ =>
      s <- getitem df "coursename" ;;
      Some (mkDF (columns df)
              (select_mask (map (isin selected_courses) s) (rows df)))
  | [] => Some df
  end.

(** The variables of the script once step 4 has run. *)
Record script_vars : Type := mkVars {
  var_df : DataFrame;
  var_numeric_cols : list string;
  var_courses : list value;
  var_selected_courses : list value;
  var_filtered_df : DataFrame
}.

Definition showing (selected_courses : list value) : option string :=
  match selected_courses with
  | _ :: _ =>
      names <- join ", " selected_courses ;;
      Some ("Showing data for: " ++ names)%string
  | [] => Some "Showing data for: All Courses"
  end.

Definition step4 (df : DataFrame) (numeric_cols : list string)
  (selected_courses : list value) : option (script_vars * list event) :=
  cs <- courses df ;;
  filtered_df <- filter_courses df selected_courses ;;
  text <- showing selected_courses ;;
  Some (mkVars df numeric_cols cs selected_courses filtered_df,
        [Subheader "Filter by Course"; Write text;
         Dataframe (head filtered_df)]).

(** ** Step 5: the aggregator *)

(** [filtered_df.groupby('coursename')[col].mean()
       .sort_values(ascending=False)] *)
Definition aggregate (filtered_df : DataFrame) (col : string)
  : option (list entry) :=
  option_map (sort_values false) (groupby_mean filtered_df "coursename" col).

Definition step5 (numeric_cols : list string) (filtered_df : DataFrame)
  : option (list event) :=
  e1 <- (if mem "sessionsperweek" numeric_cols then
           avg_sessions <- aggregate filtered_df "sessionsperweek" ;;
           Some [Subheader "Average Sessions Per Week by Course";
                 BarChart avg_sessions]
         else Some []) ;;
  e2 <- (if mem "coursecompletion" numeric_cols then
           avg_completion <- aggregate filtered_df "coursecompletion" ;;
           Some [Subheader "Average Course Completion by Course";
                 BarChart avg_completion]
         else Some []) ;;
  Some (e1 ++ e2).

(** ** Step 6: the correlation heatmap *)

(** The heatmap shows the correlation matrix of [filtered_df[numeric_cols]];
    its entries are not computed here, the event names the columns. *)
Definition step6 (numeric_cols : list string) (filtered_df : DataFrame)
  : option (list event) :=
  match numeric_cols with
  | _ :: _ =>
      _ <- sequence (map (getitem filtered_df) numeric_cols) ;;
      Some [Subheader "Correlation Heatmap"; Pyplot (Heatmap numeric_cols)]
  | [] =>
      Some [Subheader "Correlation Heatmap";
            Info "No numeric columns available for correlation heatmap."]
  end.

(** ** Step 7: the selectable chart *)

Definition insufficient_columns : string :=
  "Required numeric columns ('usersatisfaction' and 'coursecompletion') are not available for visualization.".

Definition scatter_plot (filtered_df : DataFrame) : option chart :=
  x <- getitem filtered_df "coursecompletion" ;;
  y <- getitem filtered_df "usersatisfaction" ;;
  hue <- getitem filtered_df "coursename" ;;
  Some (Scatter (combine (combine x y) hue)).

Definition line_chart (filtered_df : DataFrame) : option chart :=
  c <- getitem filtered_df "coursename" ;;
  x <- getitem filtered_df "coursecompletion" ;;
  y <- getitem filtered_df "usersatisfaction" ;;
  Some (Line
          (map (fun course =>
                  let course_data :=
                    select_mask (map (fun v => py_eqb v course) c)
                      (combine x y) in
                  (course, sort_by fst true course_data))
               (unique c))).

Definition pie_chart (filtered_df : DataFrame) : option chart :=
  avg_completion <- groupby_mean filtered_df "coursename" "coursecompletion" ;;
  wedges <- pie avg_completion ;;
  Some (Pie wedges).

Definition step7 (chart_type : chart_kind) (numeric_cols : list string)
  (filtered_df : DataFrame) : option (list event) :=
  if mem "usersatisfaction" numeric_cols
     && mem "coursecompletion" numeric_cols
  then
    c <- match chart_type with
         | ScatterPlot => scatter_plot filtered_df
         | LineChart => line_chart filtered_df
         | PieChart => pie_chart filtered_df
         end ;;
    Some [Subheader "Visualize User Satisfaction vs Course Completion";
          Pyplot c]
  else
    Some [Subheader "Visualize User Satisfaction vs Course Completion";
          Info insufficient_columns].

(** ** Step 8: the key insights *)

Definition no_data : string :=
  "No data available for the selected course(s).".

Definition top_course (filtered_df : DataFrame) (col : string)
  : option value :=
  means <- groupby_mean filtered_df "coursename" col ;;
  idxmax means.

Definition step8 (numeric_cols : list string) (filtered_df : DataFrame)
  : option (list event) :=
  if negb (empty filtered_df) then
    e1 <- (if mem "sessionsperweek" numeric_cols then
             top_course_sessions <- top_course filtered_df "sessionsperweek" ;;
             Some [Markdown (TopSessions top_course_sessions)]
           else Some []) ;;
    e2 <- (if mem "coursecompletion" numeric_cols then
             top_course_completion <-
               top_course filtered_df "coursecompletion" ;;
             Some [Markdown (TopCompletion top_course_completion)]
           else Some []) ;;
    Some ([Subheader "Key Insights"] ++ e1 ++ e2 ++ [Markdown ClosingRemark])
  else
    Some [Warning no_data].

(** ** The whole script *)

(** Steps 2 and 3 with what they show: the preview is taken after the
    renaming and before the imputation. *)
Definition steps23 (raw : DataFrame)
  : option (DataFrame * list string * list event) :=
  let named := clean_column_names raw in
  df <- clean raw ;;
  Some (df, numeric_cols_of named,
        [Subheader "Dataset Preview"; Dataframe (head named)]).

Definition dashboard (raw : DataFrame) (selected_courses : list value)
  (chart_type : chart_kind) : option (list event) :=
  r <- steps23 raw ;;
  let '(df, numeric_cols, out23) := r in
  v <- step4 df numeric_cols selected_courses ;;
  let '(vars, out4) := v in
  out5 <- step5 (var_numeric_cols vars) (var_filtered_df vars) ;;
  out6 <- step6 (var_numeric_cols vars) (var_filtered_df vars) ;;
  out7 <- step7 chart_type (var_numeric_cols vars) (var_filtered_df vars) ;;
  out8 <- step8 (var_numeric_cols vars) (var_filtered_df vars) ;;
  Some (out23 ++ out4 ++ out5 ++ out6 ++ out7 ++ out8).

(** * Vocabulary of the statements *)

Fixpoint all_space (s : string) : bool :=
  match s with
  | EmptyString => true
  | String c s' => is_space c && all_space s'
  end.

Definition starts_with_space (s : string) : bool :=
  match s with
  | EmptyString => false
  | String c _ => is_space c
  end.

Fixpoint ends_with_space (s : string) : bool :=
  match s with
  | EmptyString => false
  | String c EmptyString => is_space c
  | String _ s' => ends_with_space s'
  end.

(** [t] is [s] without its surrounding whitespace. *)
Definition trimmed_of (s t : string) : Prop :=
  exists a b : string,
    s = (a ++ t ++ b)%string
    /\ all_space a = true /\ all_space b = true
    /\ starts_with_space t = false /\ ends_with_space t = false.

(** [l1] is [l2] with some elements left out, the others in place. *)
Inductive Subseq {A : Type} : list A -> list A -> Prop :=
| subseq_nil : Subseq [] []
| subseq_skip x l1 l2 : Subseq l1 l2 -> Subseq l1 (x :: l2)
| subseq_keep x l1 l2 : Subseq l1 l2 -> Subseq (x :: l1) (x :: l2).

(** Every row has one cell per label. *)
Definition rectangular (df : DataFrame) : Prop :=
  Forall (fun r : row => length r = length (columns df)) (rows df).

(** The column holds numbers and missing cells only. *)
Definition numeric_series (s : list value) : Prop :=
  Forall (fun v => is_numeric v = true) s.

(** Strictly before in the order of [value_leb]. *)
Definition value_lt (a b : value) : Prop :=
  value_leb a b = true /\ ~ value_eq a b.



(** [c] is the course [idxmax] must name for the column [col]: a course
    whose mean no other mean exceeds, or the missing label when no course
    has a mean. *)
Definition is_top_course (filtered_df : DataFrame) (col : string) (c : value)
  : Prop :=
  exists means,
    groupby_mean filtered_df "coursename" col = Some means
    /\ ((exists m, In (c, VNum m) means
                   /\ forall c' m', In (c', VNum m') means -> m' <= m)
        \/ (c = VNaN /\ forall e, In e means -> snd e = VNaN)).

Definition is_chart_of (kind : chart_kind) (c : chart) : Prop :=
  match kind, c with
  | ScatterPlot, Scatter _ => True
  | LineChart, Line _ => True
  | PieChart, Pie _ => True
  | _, _ => False
  end.

(** The wedge [w] is the slice of the entry [e] in a pie whose sizes sum
    to [total]: same label, the fraction [mean / total] of the disc, and a
    percentage with one decimal that is the nearest to the exact one. *)
Definition slice_of (total : Q) (e : entry) (w : wedge) : Prop :=
  wedge_label w = fst e
  /\ exists m,
       snd e = VNum m /\ 0 <= m
       /\ wedge_frac w = m / total
       /\ (exists z : Z, wedge_pct w = z # 10)
       /\ Qabs (wedge_pct w - 100 * wedge_frac w) <= 1 # 20.

(** The row [r'] is the row [r] after imputation: a cell is as it was, or
    it was missing and stands in a column of [cols]. *)
Definition filled_from (labels cols : list string) (r r' : row) : Prop :=
  length r' = length r
  /\ forall j,
       cell j r' = cell j r
       \/ (is_missing (cell j r) = true
           /\ exists name, In name cols /\ index_of name labels = Some j).

(** Nothing is left to fill in column [i]: no row has a missing cell
    there, or the column has no number at all. *)
Definition settled (i : nat) (l : list row) : Prop :=
  Forall (fun r : row => nth_error r i <> Some VNaN) l
  \/ Forall (fun r : row => cell i r = VNaN) l.

(** The order of the points of one line: by ascending completion, the
    points without a completion last. *)
Definition ascending_by_x (a b : value * value) : Prop :=
  is_missing (fst b) = true
  \/ (is_missing (fst a) = false /\ value_leb (fst a) (fst b) = true).

(** ** Sample frames *)

(** A frame on which the claimed imputation leaves a cell missing. *)
Definition all_missing_frame : DataFrame :=
  mkDF ["CourseName"; "QuizScore"] [[VStr "A"; VNaN]; [VStr "B"; VNaN]].


(** Two courses with the same mean, B met before A. *)
Definition tie_frame : DataFrame :=
  mkDF ["coursename"; "sessionsperweek"]
    [[VStr "B"; VNum 1]; [VStr "A"; VNum 1]].

(** A frame that is not empty and names no course. *)
Definition nameless_frame : DataFrame :=
  mkDF ["coursename"; "sessionsperweek"] [[VNaN; VNum 1]].

(** The scenario of the pie: two courses averaging 80 and 40. *)
Definition scenario_completion : DataFrame :=
  mkDF ["coursename"; "coursecompletion"]
    [[VStr "A"; VNum 70]; [VStr "B"; VNum 40]; [VStr "A"; VNum 90]].

(** A raw frame with untidy labels, missing cells and a repeated row. *)
Definition sample_raw : DataFrame :=
  mkDF [" CourseName"; "QuizScore "; "SessionsPerWeek"; "CourseCompletion";
        "UserSatisfaction"]
    [[VStr "A"; VNaN; VNum 2; VNum 80; VNum 4];
     [VStr "A"; VNum 7; VNum 4; VNaN; VNum 5];
     [VStr "B"; VNum 9; VNum 6; VNum 40; VNum 3];
     [VStr "B"; VNum 9; VNum 6; VNum 40; VNum 3];
     [VStr "C"; VNaN; VNaN; VNum 60; VNaN]].

(** A cleaned frame: courses B, A, B, C in this order. *)
Definition sample_df : DataFrame :=
  mkDF ["coursename"; "sessionsperweek"; "coursecompletion";
        "usersatisfaction"]
    [[VStr "B"; VNum 6; VNum 40; VNum 3];
     [VStr "A"; VNum 2; VNum 80; VNum 4];
     [VStr "B"; VNum 4; VNum 50; VNum 5];
     [VStr "C"; VNum 4; VNum 60; VNum 2]].

(** Two courses nobody has completed anything of. *)
Definition zero_frame : DataFrame :=
  mkDF ["coursename"; "coursecompletion"; "usersatisfaction"]
    [[VStr "A"; VNum 0; VNum 3]; [VStr "B"; VNum 0; VNum 4]].

(** A frame whose quiz scores were typed as text. *)
Definition text_score_frame : DataFrame :=
  mkDF ["CourseName"; "QuizScore"]
    [[VStr "A"; VNum 7]; [VStr "B"; VStr "n/a"]].

(** A frame that calls its course column otherwise. *)
Definition no_course_frame : DataFrame :=
  mkDF ["Course"; "QuizScore"] [[VStr "A"; VNum 7]].

(** * Properties *)

(** ** Strings *)

Lemma lower_char_idem (c : ascii) : lower_char (lower_char c) = lower_char c.
Proof. destruct c as [[] [] [] [] [] [] [] []]; reflexivity. Qed.

Lemma is_space_lower_char (c : ascii) : is_space (lower_char c) = is_space c.
Proof. destruct c as [[] [] [] [] [] [] [] []]; reflexivity. Qed.

Lemma lower_idem (s : string) : lower (lower s) = lower s.
Proof.
  induction s as [|c s IH]; simpl; [reflexivity|].
  now rewrite lower_char_idem, IH.
Qed.

Lemma starts_with_space_lower (s : string) :
  starts_with_space (lower s) = starts_with_space s.
Proof. destruct s; simpl; [reflexivity | apply is_space_lower_char]. Qed.

Lemma ends_with_space_lower (s : string) :
  ends_with_space (lower s) = ends_with_space s.
Proof.
  induction s as [|c s IH]; [reflexivity|].
  destruct s as [|c' s']; [simpl; apply is_space_lower_char|].
  exact IH.
Qed.

Lemma lstrip_spec (s : string) :
  exists a, s = (a ++ lstrip s)%string
            /\ all_space a = true /\ starts_with_space (lstrip s) = false.
Proof.
  induction s as [|c s (a & Hs & Ha & Hl)].
  - exists EmptyString. now repeat split.
  - simpl. destruct (is_space c) eqn:Hc.
    + exists (String c a). simpl. rewrite Hc, Ha. repeat split; trivial.
      now rewrite <- Hs.
    + exists EmptyString. simpl. now repeat split.
Qed.

Lemma rstrip_spec (s : string) :
  exists b, s = (rstrip s ++ b)%string
            /\ all_space b = true /\ ends_with_space (rstrip s) = false.
Proof.
  induction s as [|c s (b & Hs & Hb & He)].
  - exists EmptyString. now repeat split.
  - simpl. destruct (rstrip s) as [|c' r] eqn:Hr.
    + simpl in Hs. subst b. destruct (is_space c) eqn:Hc.
      * exists (String c s). simpl. rewrite Hc, Hb. now repeat split.
      * exists s. simpl. now repeat split.
    + exists b. repeat split; trivial.
      simpl. f_equal. exact Hs.
Qed.

Lemma rstrip_head (s : string) :
  starts_with_space s = false -> starts_with_space (rstrip s) = false.
Proof.
  destruct s as [|c s]; simpl; trivial.
  intros Hc. destruct (rstrip s); simpl; trivial.
  now rewrite Hc.
Qed.

Lemma strip_trimmed (s : string) : trimmed_of s (strip s).
Proof.
  unfold strip.
  destruct (lstrip_spec s) as (a & Hs & Ha & Hl).
  destruct (rstrip_spec (lstrip s)) as (b & Hb & Hbs & He).
  exists a, b. repeat split; trivial.
  - now rewrite <- Hb.
  - now apply rstrip_head.
Qed.

Lemma normalize_no_surrounding_space (s : string) :
  starts_with_space (normalize s) = false
  /\ ends_with_space (normalize s) = false.
Proof.
  unfold normalize.
  destruct (strip_trimmed s) as (_ & _ & _ & _ & _ & Hs & He).
  now rewrite starts_with_space_lower, ends_with_space_lower.
Qed.

(** ** The cleaner keeps the labels it was given *)

Lemma impute_columns (df df' : DataFrame) (col : string) :
  impute df col = Some df' -> columns df' = columns df.
Proof.
  unfold impute. destruct (index_of col (columns df)); [|discriminate].
  destruct (series_mean _); [|discriminate].
  intros [= <-]. reflexivity.
Qed.

Lemma impute_all_columns (cols : list string) :
  forall df df', impute_all cols df = Some df' -> columns df' = columns df.
Proof.
  induction cols as [|c cols IH]; simpl; intros df df' H.
  - now injection H as <-.
  - destruct (impute df c) as [d|] eqn:Hd; [|discriminate].
    rewrite (IH _ _ H). eapply impute_columns; eassumption.
Qed.

Lemma clean_columns (raw df : DataFrame) :
  clean raw = Some df -> columns df = map normalize (columns raw).
Proof.
  unfold clean, imputed. intros H.
  destruct (impute_all _ _) as [d|] eqn:Hd; [|discriminate].
  injection H as <-. simpl.
  now rewrite (impute_all_columns _ _ _ Hd).
Qed.

(** C1. After step 2 the labels are, position by position, the raw labels
    stripped of their surrounding whitespace and then lower-cased, the rows
    are untouched, and the labels stay so to the end of the cleaning: every
    label of the cleaned frame is [lower t] for the trimmed part [t] of the
    raw label, has no whitespace around it and no upper-case letter left. *)
Theorem C1_column_names_normalized (raw : DataFrame) :
  columns (clean_column_names raw)
  = map (fun x => lower (strip x)) (columns raw)
  /\ rows (clean_column_names raw) = rows raw
  /\ (forall df, imputed raw = Some df \/ clean raw = Some df ->
        columns df = map (fun x => lower (strip x)) (columns raw))
  /\ Forall (fun x => trimmed_of x (strip x)
                      /\ starts_with_space (lower (strip x)) = false
                      /\ ends_with_space (lower (strip x)) = false
                      /\ lower (lower (strip x)) = lower (strip x))
       (columns raw).
Proof.
  split; [reflexivity|]. split; [reflexivity|]. split.
  - intros df [H|H].
    + unfold imputed in H. now rewrite (impute_all_columns _ _ _ H).
    + now apply clean_columns.
  - apply Forall_forall. intros x _.
    destruct (normalize_no_surrounding_space x) as [Hs He].
    repeat split; trivial; [apply strip_trimmed | apply lower_idem].
Qed.

(** ** Equality of cells and rows *)

Lemma value_eqb_spec (a b : value) : value_eqb a b = true <-> value_eq a b.
Proof.
  destruct a as [|p|s], b as [|q|t]; simpl; split; intros H;
    try discriminate; try (now inversion H); try constructor.
  - now apply Qeq_bool_iff.
  - inversion H; subst. now apply Qeq_bool_iff.
  - apply String.eqb_eq in H. subst. constructor.
  - inversion H; subst. apply String.eqb_refl.
Qed.

Lemma value_eq_refl (a : value) : value_eq a a.
Proof. destruct a; constructor. reflexivity. Qed.

Lemma value_eq_sym (a b : value) : value_eq a b -> value_eq b a.
Proof. intros H; inversion H; subst; constructor. now symmetry. Qed.

Lemma value_eq_trans (a b c : value) :
  value_eq a b -> value_eq b c -> value_eq a c.
Proof.
  intros H1 H2; inversion H1; subst; inversion H2; subst; constructor.
  etransitivity; eassumption.
Qed.

#[local] Instance value_eq_equiv : Equivalence value_eq.
Proof.
  split; [exact value_eq_refl | exact value_eq_sym | exact value_eq_trans].
Qed.

Lemma row_eqb_spec (r1 : row) : forall r2, row_eqb r1 r2 = true <-> row_eq r1 r2.
Proof.
  unfold row_eq.
  induction r1 as [|a r1 IH]; intros [|b r2]; simpl; split; intros H;
    try discriminate; try (now inversion H); try constructor.
  - apply andb_true_iff in H. now apply value_eqb_spec.
  - apply andb_true_iff in H. now apply IH.
  - inversion H; subst. apply andb_true_iff.
    split; [now apply value_eqb_spec | now apply IH].
Qed.

#[local] Instance row_eq_equiv : Equivalence row_eq.
Proof.
  unfold row_eq. split.
  - intros r. induction r; constructor; [reflexivity | assumption].
  - intros r1 r2 H. induction H; constructor; [now symmetry | assumption].
  - intros r1 r2 r3 H. revert r3.
    induction H; intros r3 H3; inversion H3; subst; constructor.
    + etransitivity; eassumption.
    + now apply IHForall2.
Qed.

(** ** Keeping first occurrences *)

Lemma Subseq_refl {A : Type} (l : list A) : Subseq l l.
Proof. induction l; constructor; assumption. Qed.

Lemma Subseq_In {A : Type} (l1 l2 : list A) :
  Subseq l1 l2 -> forall x, In x l1 -> In x l2.
Proof.
  induction 1; intros y Hy; simpl in *; intuition.
Qed.

Section KeepFirst.
Context {A : Type} (eqb : A -> A -> bool) (R : A -> A -> Prop).
Context `{Equivalence A R}.
Hypothesis eqb_spec : forall x y, eqb x y = true <-> R x y.

Lemma existsb_eqb_InA (x : A) (l : list A) :
  existsb (eqb x) l = true <-> InA R x l.
Proof.
  rewrite existsb_exists, InA_alt. split.
  - intros (y & Hy & Hxy). exists y. split; [now apply eqb_spec | assumption].
  - intros (y & Hxy & Hy). exists y. split; [assumption | now apply eqb_spec].
Qed.

Lemma keep_first_Subseq (l : list A) :
  forall seen, Subseq (keep_first eqb seen l) l.
Proof.
  induction l as [|x l IH]; intros seen; simpl; [constructor|].
  destruct (existsb (eqb x) seen); constructor; apply IH.
Qed.

Lemma keep_first_fresh (l : list A) :
  forall seen x, InA R x (keep_first eqb seen l) -> ~ InA R x seen.
Proof.
  induction l as [|y l IH]; intros seen x Hx; simpl in Hx.
  - inversion Hx.
  - destruct (existsb (eqb y) seen) eqn:Hy.
    + now apply IH.
    + inversion Hx; subst.
      * intros Hs. rewrite H1 in Hs.
        apply existsb_eqb_InA in Hs. congruence.
      * intros Hs. apply (IH _ _ H1). now right.
Qed.

Lemma keep_first_NoDupA (l : list A) :
  forall seen, NoDupA R (keep_first eqb seen l).
Proof.
  induction l as [|x l IH]; intros seen; simpl; [constructor|].
  destruct (existsb (eqb x) seen); [apply IH|].
  constructor; [|apply IH].
  intros Hx. apply (keep_first_fresh _ _ _ Hx). now left.
Qed.

Lemma keep_first_complete (l : list A) :
  forall seen x, In x l -> InA R x seen \/ InA R x (keep_first eqb seen l).
Proof.
  induction l as [|y l IH]; intros seen x Hx; [inversion Hx|].
  simpl. destruct (existsb (eqb y) seen) eqn:Hy.
  - destruct Hx as [<-|Hx]; [left; now apply existsb_eqb_InA | now apply IH].
  - destruct Hx as [<-|Hx]; [right; now left|].
    destruct (IH (y :: seen) x Hx) as [Hs|Hk]; [|right; now right].
    inversion Hs; subst; [right; now left | now left].
Qed.


End KeepFirst.

Lemma NoDupA_NoDup {A : Type} (R : A -> A -> Prop) `{Reflexive A R}
  (l : list A) : NoDupA R l -> NoDup l.
Proof.
  induction 1; constructor; trivial.
  intros Hx. apply H0. apply InA_alt. exists x. split; [reflexivity | assumption].
Qed.

(** C3. After the cleaning no two rows agree on every column, every row
    kept is a row of the frame as it stood before [drop_duplicates], in the
    same order, and every row of that frame still has its equal. *)
Theorem C3_no_duplicate_rows (raw before df : DataFrame) :
  imputed raw = Some before ->
  clean raw = Some df ->
  NoDupA row_eq (rows df)
  /\ NoDup (rows df)
  /\ (forall r, In r (rows df) -> In r (rows before))
  /\ Subseq (rows df) (rows before)
  /\ (forall r, In r (rows before) -> exists r', In r' (rows df) /\ row_eq r r').
Proof.
  unfold clean. intros Hb Hc. rewrite Hb in Hc. injection Hc as <-. simpl.
  assert (Hnd : NoDupA row_eq (keep_first row_eqb [] (rows before))).
  { apply (keep_first_NoDupA row_eqb row_eq row_eqb_spec). }
  assert (Hsub : Subseq (keep_first row_eqb [] (rows before)) (rows before)).
  { apply keep_first_Subseq. }
  repeat split; trivial.
  - eapply NoDupA_NoDup; [|exact Hnd]. typeclasses eauto.
  - now apply Subseq_In.
  - intros r Hr.
    destruct (keep_first_complete row_eqb row_eq row_eqb_spec _ [] r Hr)
      as [Hs|Hk]; [inversion Hs|].
    apply InA_alt in Hk. destruct Hk as (r' & Hrr & Hin). now exists r'.
Qed.

(** ** Columns and cells *)

Lemma index_of_nth_error (name : string) (cols : list string) :
  forall i, index_of name cols = Some i -> nth_error cols i = Some name.
Proof.
  induction cols as [|c cols IH]; simpl; intros i H; [discriminate|].
  destruct (String.eqb name c) eqn:E.
  - injection H as <-. apply String.eqb_eq in E. now subst.
  - destruct (index_of name cols) as [j|]; [|discriminate].
    injection H as <-. now apply IH.
Qed.

Lemma index_of_lt (name : string) (cols : list string) (i : nat) :
  index_of name cols = Some i -> (i < length cols)%nat.
Proof.
  intros H. apply index_of_nth_error in H.
  apply nth_error_Some. congruence.
Qed.

Lemma index_of_inj (a b : string) (cols : list string) (i : nat) :
  index_of a cols = Some i -> index_of b cols = Some i -> a = b.
Proof.
  intros Ha Hb. apply index_of_nth_error in Ha, Hb. congruence.
Qed.

Lemma index_of_mem (name : string) (cols : list string) :
  existsb (String.eqb name) cols = true -> exists i, index_of name cols = Some i.
Proof.
  induction cols as [|c cols IH]; simpl; [discriminate|].
  destruct (String.eqb name c); [now exists 0%nat|].
  simpl. intros H. destruct (IH H) as [i ->]. now exists (S i).
Qed.

Lemma length_update_nth {A : Type} (f : A -> A) (l : list A) :
  forall i, length (update_nth i f l) = length l.
Proof.
  induction l as [|x l IH]; intros [|i]; simpl; trivial. now rewrite IH.
Qed.

Lemma cell_update_same (f : value -> value) (r : row) :
  forall i, (i < length r)%nat -> cell i (update_nth i f r) = f (cell i r).
Proof.
  unfold cell. induction r as [|x r IH]; intros [|i] Hi; simpl in *;
    try lia; trivial.
  apply IH. lia.
Qed.

Lemma cell_update_other (f : value -> value) (r : row) :
  forall i j, i <> j -> cell j (update_nth i f r) = cell j r.
Proof.
  unfold cell. induction r as [|x r IH]; intros [|i] [|j] Hij; simpl;
    trivial; try congruence.
  apply IH. congruence.
Qed.

Lemma cell_update_cases (f : value -> value) (r : row) (i j : nat) :
  cell j (update_nth i f r) = cell j r
  \/ cell j (update_nth i f r) = f (cell j r).
Proof.
  destruct (Nat.eq_dec i j) as [<-|Hij].
  - destruct (Nat.lt_ge_cases i (length r)) as [Hi|Hi].
    + right. now apply cell_update_same.
    + left. unfold cell.
      rewrite !nth_overflow; trivial. now rewrite length_update_nth.
  - left. now apply cell_update_other.
Qed.

Lemma column_fillna_same (i : nat) (m : value) (df : DataFrame) :
  rectangular df -> (i < length (columns df))%nat ->
  column_at i (fillna_at i m df) = map (fillna m) (column_at i df).
Proof.
  unfold rectangular, column_at, fillna_at. simpl.
  intros Hr Hi. rewrite !map_map. apply map_ext_in. intros r Hin.
  rewrite Forall_forall in Hr. apply cell_update_same.
  rewrite (Hr r Hin). exact Hi.
Qed.

Lemma column_fillna_other (i j : nat) (m : value) (df : DataFrame) :
  i <> j -> column_at j (fillna_at i m df) = column_at j df.
Proof.
  unfold column_at, fillna_at. simpl. intros Hij.
  rewrite map_map. apply map_ext. intros r. now apply cell_update_other.
Qed.

Lemma rectangular_fillna (i : nat) (m : value) (df : DataFrame) :
  rectangular df -> rectangular (fillna_at i m df).
Proof.
  unfold rectangular, fillna_at. simpl. intros Hr.
  apply Forall_map. eapply Forall_impl; [|exact Hr].
  intros r Hlen. now rewrite length_update_nth.
Qed.

(** ** Means *)

Lemma numbers_numeric (s : list value) :
  numeric_series s <-> exists l, numbers s = Some l.
Proof.
  unfold numeric_series. induction s as [|v s IH]; simpl.
  - split; [now exists [] | constructor].
  - destruct v as [|q|t].
    + rewrite <- IH. split; intros H; [now inversion H | now constructor].
    + split; intros H.
      * inversion H; subst. apply IH in H3. destruct H3 as [l ->].
        now exists (q :: l).
      * constructor; trivial. apply IH.
        destruct H as [l H]. destruct (numbers s); [eauto | discriminate].
    + split; intros H; [inversion H; discriminate | now destruct H].
Qed.

Lemma numbers_nonempty (s : list value) (l : list Q) (v : value) :
  numbers s = Some l -> In v s -> is_missing v = false -> l <> [].
Proof.
  revert l. induction s as [|x s IH]; intros l Hn Hin Hv; [inversion Hin|].
  simpl in Hn. destruct x as [|q|t]; [| |discriminate].
  - destruct Hin as [<-|Hin]; [discriminate|]. eauto.
  - destruct (numbers s); [|discriminate]. injection Hn as <-. discriminate.
Qed.

Lemma series_mean_numeric (s : list value) (m : value) :
  series_mean s = Some m -> is_numeric m = true.
Proof.
  unfold series_mean. destruct (numbers s) as [[|q l]|]; try discriminate;
    now intros [= <-].
Qed.

Lemma series_mean_defined (s : list value) :
  numeric_series s -> exists m, series_mean s = Some m.
Proof.
  intros H. apply numbers_numeric in H. destruct H as [l Hl].
  unfold series_mean. rewrite Hl. destruct l; eauto.
Qed.

Lemma numeric_fillna_at (i j : nat) (m : value) (df : DataFrame) :
  is_numeric m = true -> numeric_series (column_at j df) ->
  numeric_series (column_at j (fillna_at i m df)).
Proof.
  unfold numeric_series, column_at, fillna_at. simpl. intros Hm Hs.
  rewrite map_map. rewrite Forall_map in *.
  eapply Forall_impl; [|exact Hs]. intros r Hr. simpl in *.
  destruct (cell_update_cases (fillna m) r i j) as [-> | ->]; trivial.
  destruct (cell j r); trivial.
Qed.

Lemma fillna_no_missing (q : Q) (s : list value) :
  Forall (fun v => is_missing v = false) (map (fillna (VNum q)) s).
Proof.
  apply Forall_map. apply Forall_forall. intros [| |] _; reflexivity.
Qed.

(** ** The imputation loop *)

Lemma impute_all_defined (cols : list string) :
  forall df,
    (forall c, In c cols -> exists i, index_of c (columns df) = Some i
                                      /\ numeric_series (column_at i df)) ->
    exists df', impute_all cols df = Some df'.
Proof.
  induction cols as [|c cols IH]; intros df H; simpl; [eauto|].
  destruct (H c (or_introl eq_refl)) as (i & Hi & Hnum).
  unfold impute. rewrite Hi.
  destruct (series_mean_defined _ Hnum) as [m Hm]. rewrite Hm.
  apply IH. intros c' Hc'. destruct (H c' (or_intror Hc')) as (j & Hj & Hn).
  exists j. split; [exact Hj|].
  apply numeric_fillna_at; trivial. eapply series_mean_numeric; eassumption.
Qed.

Lemma impute_all_column (cols : list string) :
  forall df df',
    impute_all cols df = Some df' -> rectangular df -> NoDup cols ->
    forall c i, index_of c (columns df) = Some i ->
      (In c cols ->
         exists m, series_mean (column_at i df) = Some m
                   /\ column_at i df' = map (fillna m) (column_at i df))
      /\ (~ In c cols -> column_at i df' = column_at i df).
Proof.
  induction cols as [|c0 cols IH]; intros df df' H Hrect Hnd c i Hi.
  - simpl in H. injection H as <-. split; [intros []|trivial].
  - simpl in H. unfold impute in H.
    destruct (index_of c0 (columns df)) as [i0|] eqn:Hi0; [|discriminate].
    destruct (series_mean (column_at i0 df)) as [m0|] eqn:Hm0; [|discriminate].
    inversion Hnd as [|? ? Hnotin Hnd']; subst.
    assert (Hrect' := rectangular_fillna i0 m0 df Hrect).
    destruct (IH _ _ H Hrect' Hnd' c i Hi) as [Hin Hout].
    destruct (String.eqb_spec c0 c) as [->|Hne].
    + assert (i0 = i) by congruence. subst i0.
      split; [|intros Hc; exfalso; apply Hc; now left].
      intros _. exists m0. split; trivial.
      rewrite (Hout Hnotin). apply column_fillna_same; trivial.
      eapply index_of_lt; eassumption.
    + assert (Hii : i0 <> i).
      { intros ->. apply Hne. eapply index_of_inj; eassumption. }
      rewrite (column_fillna_other i0 i m0 df Hii) in Hin, Hout.
      split.
      * intros [Hc|Hc]; [congruence | now apply Hin].
      * intros Hc. apply Hout. intros Hc'. apply Hc. now right.
Qed.

Lemma index_of_mem_inv (name : string) (cols : list string) (i : nat) :
  index_of name cols = Some i -> existsb (String.eqb name) cols = true.
Proof.
  intros H. apply index_of_nth_error, nth_error_In in H.
  apply existsb_exists. exists name. split; [exact H | apply String.eqb_refl].
Qed.

Lemma NoDup_all_numeric_cols : NoDup all_numeric_cols.
Proof.
  unfold all_numeric_cols.
  repeat constructor; simpl; intuition discriminate.
Qed.

Lemma rectangular_clean_column_names (raw : DataFrame) :
  rectangular raw -> rectangular (clean_column_names raw).
Proof.
  unfold rectangular. simpl. now rewrite length_map.
Qed.

(** C2 fails as stated: [quizscore] is one of the known numeric columns and
    is present, all its cells are missing, so its mean is missing too and
    the cleaned frame still has the missing cells. *)
Lemma C2_counterexample_all_missing :
  In "quizscore" all_numeric_cols
  /\ exists df, clean all_missing_frame = Some df
                /\ getitem df "quizscore" = Some [VNaN; VNaN]
                /\ Exists (fun v => is_missing v = true) [VNaN; VNaN].
Proof.
  split; [simpl; tauto|].
  eexists. split; [reflexivity|]. split; [reflexivity|].
  now constructor.
Qed.

(** C2, amended.  Take a raw frame with one cell per label in every row,
    whose normalised labels are pairwise distinct and whose known numeric
    columns hold numbers or missing cells, and a known numeric column that
    is present and has a cell that is not missing.  Then the cleaning
    succeeds; just before the duplicates are dropped the column is,
    position by position, the raw column with every missing cell replaced
    by the arithmetic mean of the numbers the raw column holds and every
    other cell as it was; and the cleaned frame has no missing cell in that
    column. *)
Theorem C2_imputation_with_column_mean (raw : DataFrame) (col : string)
  (i : nat) :
  rectangular raw ->
  NoDup (map normalize (columns raw)) ->
  (forall c j, In c all_numeric_cols ->
               index_of c (map normalize (columns raw)) = Some j ->
               numeric_series (column_at j raw)) ->
  In col all_numeric_cols ->
  index_of col (map normalize (columns raw)) = Some i ->
  (exists v, In v (column_at i raw) /\ is_missing v = false) ->
  exists before df l,
    imputed raw = Some before
    /\ clean raw = Some df
    /\ numbers (column_at i raw) = Some l
    /\ l <> []
    /\ column_at i before
       = map (fun v => if is_missing v
                       then VNum (Qsum l / inject_Z (Z.of_nat (length l)))
                       else v)
           (column_at i raw)
    /\ Forall (fun v => is_missing v = false) (column_at i df).
Proof.
  intros Hrect _ Hnum Hcol Hi (v & Hv & Hvm).
  set (named := clean_column_names raw).
  assert (Hcols : forall c, In c (numeric_cols_of named) ->
            exists j, index_of c (columns named) = Some j
                      /\ numeric_series (column_at j named)).
  { intros c Hc. apply filter_In in Hc. destruct Hc as [Hc Hin].
    destruct (index_of_mem _ _ Hin) as [j Hj]. exists j. split; trivial.
    exact (Hnum c j Hc Hj). }
  destruct (impute_all_defined _ named Hcols) as [before Hb].
  assert (Hnd : NoDup (numeric_cols_of named)).
  { apply NoDup_filter, NoDup_all_numeric_cols. }
  assert (Hin : In col (numeric_cols_of named)).
  { apply filter_In. split; trivial. eapply index_of_mem_inv. exact Hi. }
  destruct (impute_all_column _ _ _ Hb
              (rectangular_clean_column_names _ Hrect) Hnd col i Hi)
    as [Hfill _].
  destruct (Hfill Hin) as (m & Hm & Hcolumn).
  change (column_at i named) with (column_at i raw) in Hm, Hcolumn.
  assert (Hnumi : numeric_series (column_at i raw)) by exact (Hnum col i Hcol Hi).
  apply numbers_numeric in Hnumi. destruct Hnumi as [l Hl].
  assert (Hne : l <> []) by (eapply numbers_nonempty; eassumption).
  assert (Hmv : m = VNum (Qmean l)).
  { unfold series_mean in Hm. rewrite Hl in Hm.
    destruct l; [congruence | now injection Hm]. }
  subst m.
  exists before, (drop_duplicates before), l.
  split; [exact Hb|]. split; [unfold clean; fold named; unfold imputed;
                              fold named; now rewrite Hb|].
  split; [exact Hl|]. split; [exact Hne|]. split.
  - rewrite Hcolumn. apply map_ext. intros [| |]; reflexivity.
  - assert (Hall : Forall (fun v => is_missing v = false) (column_at i before)).
    { rewrite Hcolumn. apply fillna_no_missing. }
    unfold column_at in *. simpl. rewrite Forall_map in *.
    rewrite Forall_forall in *. intros r Hr. apply Hall.
    eapply Subseq_In; [apply keep_first_Subseq | exact Hr].
Qed.

(** ** The course filter *)

Lemma select_mask_map {A : Type} (f : A -> bool) (l : list A) :
  select_mask (map f l) l = filter f l.
Proof.
  induction l as [|x l IH]; simpl; trivial.
  destruct (f x); now rewrite IH.
Qed.

Lemma filter_Subseq {A : Type} (f : A -> bool) (l : list A) :
  Subseq (filter f l) l.
Proof.
  induction l as [|x l IH]; simpl; [constructor|].
  destruct (f x); now constructor.
Qed.

Lemma filter_all {A : Type} (f : A -> bool) (l : list A) :
  (forall x, In x l -> f x = true) -> filter f l = l.
Proof.
  induction l as [|x l IH]; simpl; intros H; trivial.
  rewrite (H x (or_introl eq_refl)). f_equal. apply IH. auto.
Qed.

Lemma isin_spec (values : list value) (v : value) :
  isin values v = true <-> InA value_eq v values.
Proof. apply (existsb_eqb_InA value_eqb value_eq value_eqb_spec). Qed.

Lemma filter_courses_rows (df : DataFrame) (i : nat) (sel : list value) :
  index_of "coursename" (columns df) = Some i -> sel <> [] ->
  filter_courses df sel
  = Some (mkDF (columns df) (filter (fun r => isin sel (cell i r)) (rows df))).
Proof.
  intros Hi Hsel. unfold filter_courses, getitem. rewrite Hi. simpl.
  destruct sel as [|c sel]; [congruence|].
  unfold column_at. rewrite map_map. now rewrite select_mask_map.
Qed.

Lemma Subseq_embedding {A : Type} (l1 l2 : list A) :
  Subseq l1 l2 ->
  exists f : nat -> nat,
    (forall a b, (a < b)%nat -> (f a < f b)%nat)
    /\ (forall k, (k < length l1)%nat -> nth_error l1 k = nth_error l2 (f k)).
Proof.
  induction 1 as [|x l1 l2 _ (f & Hmono & Hnth)|x l1 l2 _ (f & Hmono & Hnth)].
  - exists (fun k => k). split; [trivial | reflexivity].
  - exists (fun k => S (f k)). split.
    + intros a b Hab. apply -> Nat.succ_lt_mono. now apply Hmono.
    + intros k Hk. simpl. now apply Hnth.
  - exists (fun k => match k with O => O | S k' => S (f k') end). split.
    + intros [|a] [|b] Hab; try lia.
      apply -> Nat.succ_lt_mono. apply Hmono. lia.
    + intros [|k] Hk; simpl in *; trivial. apply Hnth. lia.
Qed.

(** C4. On a cleaned frame with its [coursename] column: a selection that
    is not empty yields exactly the rows whose course is in the selection,
    under the same labels; a selection made of the courses present yields
    the frame itself; an empty selection yields the frame itself, which is
    empty only when the cleaned frame is. *)
Theorem C4_filter_by_course (df : DataFrame) (i : nat) :
  index_of "coursename" (columns df) = Some i ->
  (forall sel, sel <> [] ->
     exists fdf,
       filter_courses df sel = Some fdf
       /\ columns fdf = columns df
       /\ rows fdf = filter (fun r => isin sel (cell i r)) (rows df)
       /\ (forall r, In r (rows fdf) <->
                     In r (rows df)
                     /\ exists c, In c sel /\ value_eq (cell i r) c))
  /\ (forall sel cs,
        courses df = Some cs ->
        (forall c, InA value_eq c sel <-> InA value_eq c cs) ->
        filter_courses df sel = Some df)
  /\ filter_courses df [] = Some df
  /\ (forall fdf, filter_courses df [] = Some fdf -> empty fdf = empty df).
Proof.
  intros Hi. repeat split.
  - intros sel Hsel. eexists.
    split; [exact (filter_courses_rows df i sel Hi Hsel)|].
    split; [reflexivity|]. split; [reflexivity|]. simpl.
    intros r. rewrite filter_In, isin_spec, InA_alt.
    split; intros [Hr (c & H1 & H2)]; (split; [exact Hr|]); exists c; tauto.
  - intros sel cs Hcs Hsame.
    destruct sel as [|c0 sel]; [reflexivity|].
    rewrite (filter_courses_rows df i (c0 :: sel) Hi) by discriminate.
    unfold courses, getitem in Hcs. rewrite Hi in Hcs. simpl in Hcs.
    injection Hcs as <-.
    rewrite filter_all; [now destruct df|].
    intros r Hr. apply isin_spec, Hsame.
    assert (Hin : In (cell i r) (column_at i df)) by (now apply in_map).
    destruct (keep_first_complete value_eqb value_eq value_eqb_spec
                _ [] _ Hin) as [Hs|Hk]; [inversion Hs | exact Hk].
  - now intros fdf [= <-].
Qed.

(** C10. The filter binds [filtered_df] and leaves [df] as it was; whatever
    the selection, the filtered rows are rows of the cleaned frame in their
    original order: the k-th filtered row is the row at position [f k] of
    the cleaned frame for a strictly increasing [f]. *)
Theorem C10_filter_is_ordered_subsequence (df : DataFrame)
  (numeric_cols : list string) (sel : list value) (i : nat) :
  index_of "coursename" (columns df) = Some i ->
  exists fdf,
    filter_courses df sel = Some fdf
    /\ columns fdf = columns df
    /\ Subseq (rows fdf) (rows df)
    /\ (forall r, In r (rows fdf) -> In r (rows df))
    /\ (exists f : nat -> nat,
          (forall a b, (a < b)%nat -> (f a < f b)%nat)
          /\ forall k, (k < length (rows fdf))%nat ->
                       nth_error (rows fdf) k = nth_error (rows df) (f k))
    /\ (forall vars out,
          step4 df numeric_cols sel = Some (vars, out) ->
          var_df vars = df /\ var_filtered_df vars = fdf).
Proof.
  intros Hi.
  assert (H : exists fdf, filter_courses df sel = Some fdf
                          /\ columns fdf = columns df
                          /\ Subseq (rows fdf) (rows df)).
  { destruct sel as [|c sel].
    - exists df. repeat split. apply Subseq_refl.
    - eexists. split; [eapply filter_courses_rows; [exact Hi | discriminate]|].
      split; [reflexivity | apply filter_Subseq]. }
  destruct H as (fdf & Hf & Hc & Hs). exists fdf.
  split; [exact Hf|]. split; [exact Hc|]. split; [exact Hs|].
  split; [now apply Subseq_In|]. split; [now apply Subseq_embedding|].
  intros vars out H4. unfold step4 in H4. rewrite Hf in H4.
  destruct (courses df); [|discriminate].
  destruct (showing sel); [|discriminate].
  injection H4 as <- _. now split.
Qed.

(** ** The order on cells *)

Lemma string_leb_trans (s t u : string) :
  String.leb s t = true -> String.leb t u = true -> String.leb s u = true.
Proof.
  unfold String.leb. revert t u.
  induction s as [|a s IH]; intros [|b t] [|c u]; simpl; try easy.
  destruct (Ascii.compare a b) eqn:Eab; try easy;
    destruct (Ascii.compare b c) eqn:Ebc; try easy.
  - apply Ascii.compare_eq_iff in Eab, Ebc. subst.
    assert (E : Ascii.compare c c = Eq).
    { unfold Ascii.compare. apply N.compare_refl. }
    rewrite E. apply IH.
  - apply Ascii.compare_eq_iff in Eab. subst. now rewrite Ebc.
  - apply Ascii.compare_eq_iff in Ebc. subst. now rewrite Eab.
  - assert (E : Ascii.compare a c = Lt).
    { unfold Ascii.compare in *. rewrite N.compare_lt_iff in *.
      eapply N.lt_trans; eassumption. }
    now rewrite E.
Qed.

Lemma string_leb_refl (s : string) : String.leb s s = true.
Proof. destruct (String.leb_total s s); assumption. Qed.

Lemma value_leb_total (a b : value) :
  value_leb a b = true \/ value_leb b a = true.
Proof.
  destruct a as [|p|s], b as [|q|t]; simpl; auto.
  - rewrite !Qle_bool_iff. destruct (Qlt_le_dec p q) as [H|H]; auto.
    left. now apply Qlt_le_weak.
  - apply String.leb_total.
Qed.

Lemma value_leb_trans (a b c : value) :
  value_leb a b = true -> value_leb b c = true -> value_leb a c = true.
Proof.
  destruct a as [|p|s], b as [|q|t], c as [|r|u]; simpl; try easy.
  - rewrite !Qle_bool_iff. apply Qle_trans.
  - apply string_leb_trans.
Qed.


(** ** The sort *)

Section InsertionSort.
Context {A : Type} (leb : A -> A -> bool).

Lemma insert_sorted_perm (x : A) (l : list A) :
  Permutation (insert_sorted leb x l) (x :: l).
Proof.
  induction l as [|y l IH]; simpl; [reflexivity|].
  destruct (leb x y); [reflexivity|].
  rewrite IH. apply perm_swap.
Qed.

Lemma insertion_sort_perm (l : list A) : Permutation (insertion_sort leb l) l.
Proof.
  induction l as [|x l IH]; simpl; [reflexivity|].
  rewrite insert_sorted_perm. now constructor.
Qed.

Hypothesis leb_total : forall a b, leb a b = true \/ leb b a = true.
Hypothesis leb_trans :
  forall a b c, leb a b = true -> leb b c = true -> leb a c = true.

Lemma insert_sorted_sorted (x : A) (l : list A) :
  StronglySorted (fun a b => leb a b = true) l ->
  StronglySorted (fun a b => leb a b = true) (insert_sorted leb x l).
Proof.
  induction 1 as [|y l Hs IH Hy]; simpl.
  - repeat constructor.
  - destruct (leb x y) eqn:Hxy.
    + constructor; [now constructor|].
      constructor; trivial.
      eapply Forall_impl; [|exact Hy]. intros z Hz. eapply leb_trans; eauto.
    + constructor; trivial.
      eapply Permutation_Forall;
        [symmetry; apply insert_sorted_perm|].
      constructor; trivial.
      destruct (leb_total x y); congruence.
Qed.

Lemma insertion_sort_sorted (l : list A) :
  StronglySorted (fun a b => leb a b = true) (insertion_sort leb l).
Proof.
  induction l as [|x l IH]; simpl; [constructor|].
  now apply insert_sorted_sorted.
Qed.
End InsertionSort.

Lemma StronglySorted_app {A : Type} (R : A -> A -> Prop) (l1 l2 : list A) :
  StronglySorted R l1 -> StronglySorted R l2 ->
  (forall a b, In a l1 -> In b l2 -> R a b) ->
  StronglySorted R (l1 ++ l2).
Proof.
  induction 1 as [|x l1 Hs IH Hx]; intros H2 H12; simpl; trivial.
  constructor.
  - apply IH; trivial. intros a b Ha Hb. apply H12; [now right | trivial].
  - apply Forall_app. split; trivial.
    apply Forall_forall. intros b Hb. apply H12; [now left | trivial].
Qed.

Lemma StronglySorted_rev {A : Type} (R : A -> A -> Prop) (l : list A) :
  StronglySorted R l -> StronglySorted (fun a b => R b a) (rev l).
Proof.
  induction 1 as [|x l Hs IH Hx]; simpl; [constructor|].
  apply StronglySorted_app; trivial.
  - repeat constructor.
  - intros a b Ha [<-|[]]. apply in_rev in Ha.
    rewrite Forall_forall in Hx. now apply Hx.
Qed.

Lemma StronglySorted_impl {A : Type} (R S : A -> A -> Prop) (l : list A) :
  (forall a b, In a l -> In b l -> R a b -> S a b) ->
  StronglySorted R l -> StronglySorted S l.
Proof.
  intros HRS H. induction H as [|x l Hs IH Hx]; constructor.
  - apply IH. intros a b Ha Hb. apply HRS; now right.
  - rewrite Forall_forall in *. intros y Hy.
    apply HRS; [now left | now right | now apply Hx].
Qed.

Lemma StronglySorted_split {A : Type} (R : A -> A -> Prop)
  (l1 l2 l3 : list A) (a b : A) :
  StronglySorted R (l1 ++ a :: l2 ++ b :: l3) -> R a b.
Proof.
  induction l1 as [|x l1 IH]; simpl; intros H.
  - apply StronglySorted_inv in H. destruct H as [_ H].
    rewrite Forall_forall in H. apply H.
    apply in_or_app. right. now left.
  - apply StronglySorted_inv in H. now apply IH.
Qed.

(** ** Sorting by a key *)

Lemma filter_partition_perm {A : Type} (q : A -> bool) (l : list A) :
  Permutation (filter (fun x => negb (q x)) l ++ filter q l) l.
Proof.
  induction l as [|x l IH]; simpl; [reflexivity|].
  destruct (q x); simpl.
  - rewrite <- Permutation_middle. now constructor.
  - now constructor.
Qed.

Lemma is_missing_eq (a b : value) :
  value_eq a b -> is_missing a = is_missing b.
Proof. intros H; now inversion H. Qed.

Section SortBy.
Context {A : Type} (key : A -> value).

Let leb := fun a b : A => value_leb (key a) (key b).

Lemma sort_by_perm (ascending : bool) (l : list A) :
  Permutation (sort_by key ascending l) l.
Proof.
  unfold sort_by.
  eapply Permutation_trans;
    [|apply (filter_partition_perm (fun e => is_missing (key e)) l)].
  apply Permutation_app_tail.
  destruct ascending.
  - apply insertion_sort_perm.
  - rewrite <- Permutation_rev, insertion_sort_perm. symmetry.
    apply Permutation_rev.
Qed.

(** Descending: greater keys first, missing keys last. *)
Lemma sort_by_descending (l : list A) :
  StronglySorted
    (fun a b => is_missing (key b) = true
                \/ (is_missing (key a) = false
                    /\ value_leb (key b) (key a) = true))
    (sort_by key false l).
Proof.
  unfold sort_by. apply StronglySorted_app.
  - eapply StronglySorted_impl;
      [|apply StronglySorted_rev, (insertion_sort_sorted leb)].
    + intros a b Ha _ Hab. right. split; [|exact Hab].
      apply in_rev in Ha.
      apply (Permutation_in _ (insertion_sort_perm leb _)) in Ha.
      apply in_rev, filter_In in Ha. destruct Ha as [_ Ha].
      now apply negb_true_iff.
    + intros a b. apply value_leb_total.
    + intros a b c. apply value_leb_trans.
  - induction l as [|x l IH]; simpl; [constructor|].
    destruct (is_missing (key x)) eqn:Hx; trivial.
    constructor; trivial. apply Forall_forall. intros y Hy.
    left. now apply filter_In in Hy.
  - intros a b _ Hb. left. now apply filter_In in Hb.
Qed.
End SortBy.

(** ** Grouping *)

Lemma sequence_map {A B : Type} (f : A -> option B) (l : list A) :
  (forall x, In x l -> exists y, f x = Some y) ->
  exists ys, sequence (map f l) = Some ys
             /\ Forall2 (fun x y => f x = Some y) l ys.
Proof.
  induction l as [|x l IH]; intros H; simpl.
  - exists []. split; [reflexivity | constructor].
  - destruct (H x (or_introl eq_refl)) as [y Hy]. rewrite Hy.
    destruct IH as (ys & Hs & Hf); [intros z Hz; apply H; now right|].
    rewrite Hs. exists (y :: ys). split; [reflexivity | now constructor].
Qed.

Lemma group_values_rows (df : DataFrame) (ic iv : nat) (k : value) :
  group_values k (column_at ic df) (column_at iv df)
  = map (cell iv) (filter (fun r => value_eqb (cell ic r) k) (rows df)).
Proof.
  unfold group_values, column_at.
  induction (rows df) as [|r l IH]; simpl; trivial.
  destruct (value_eqb (cell ic r) k); simpl; now rewrite IH.
Qed.

Lemma numeric_series_filter (iv : nat) (p : row -> bool) (l : list row) :
  numeric_series (map (cell iv) l) ->
  numeric_series (map (cell iv) (filter p l)).
Proof.
  unfold numeric_series. rewrite !Forall_map, !Forall_forall.
  intros H r Hr. apply H. now apply filter_In in Hr.
Qed.

Lemma InA_perm (l1 l2 : list value) (c : value) :
  Permutation l1 l2 -> InA value_eq c l1 -> InA value_eq c l2.
Proof.
  intros Hp H. apply InA_alt in H. destruct H as (y & Hy & Hin).
  apply InA_alt. exists y. split; trivial. eapply Permutation_in; eassumption.
Qed.

Lemma NoDupA_perm (l1 l2 : list value) :
  Permutation l1 l2 -> NoDupA value_eq l1 -> NoDupA value_eq l2.
Proof.
  intros Hp. apply (PermutationA_preserves_NoDupA value_eq_equiv).
  now apply (Permutation_PermutationA value_eq_equiv).
Qed.

Lemma group_keys_NoDupA (keys : list value) :
  NoDupA value_eq (group_keys keys).
Proof.
  unfold group_keys.
  eapply NoDupA_perm; [symmetry; apply insertion_sort_perm|].
  apply (keep_first_NoDupA value_eqb value_eq value_eqb_spec _ []).
Qed.

Lemma group_keys_InA (keys : list value) (c : value) :
  InA value_eq c (group_keys keys)
  <-> is_missing c = false /\ InA value_eq c keys.
Proof.
  unfold group_keys, unique.
  set (present := filter (fun k => negb (is_missing k)) keys).
  assert (Hpresent : InA value_eq c present
                     <-> is_missing c = false /\ InA value_eq c keys).
  { unfold present. rewrite !InA_alt. split.
    - intros (y & Hy & Hin). apply filter_In in Hin. destruct Hin as [Hin Hm].
      split; [|now exists y].
      rewrite (is_missing_eq _ _ Hy). now apply negb_true_iff.
    - intros [Hm (y & Hy & Hin)]. exists y. split; trivial.
      apply filter_In. split; trivial.
      rewrite <- (is_missing_eq _ _ Hy), Hm. reflexivity. }
  rewrite <- Hpresent. split; intros H.
  - apply (InA_perm _ _ _ (insertion_sort_perm value_leb _)) in H.
    apply InA_alt in H. destruct H as (y & Hy & Hin).
    apply InA_alt. exists y. split; trivial.
    eapply Subseq_In; [apply keep_first_Subseq | exact Hin].
  - apply (InA_perm (keep_first value_eqb [] present));
      [symmetry; apply insertion_sort_perm|].
    apply InA_alt in H. destruct H as (y & Hy & Hin).
    destruct (keep_first_complete value_eqb value_eq value_eqb_spec
                _ [] y Hin) as [Hs|Hk]; [inversion Hs|].
    now rewrite Hy.
Qed.

Lemma sorted_nodup_strict (l : list value) :
  StronglySorted (fun a b => value_leb a b = true) l ->
  NoDupA value_eq l -> StronglySorted value_lt l.
Proof.
  induction 1 as [|x l Hs IH Hx]; intros Hnd; [constructor|].
  inversion Hnd as [|? ? Hnotin Hnd']; subst.
  constructor; [now apply IH|].
  rewrite Forall_forall in *. intros y Hy. split; [now apply Hx|].
  intros Hxy. apply Hnotin. apply InA_alt. now exists y.
Qed.

Lemma group_keys_sorted (keys : list value) :
  StronglySorted value_lt (group_keys keys).
Proof.
  apply sorted_nodup_strict; [|apply group_keys_NoDupA].
  apply insertion_sort_sorted; [exact value_leb_total | exact value_leb_trans].
Qed.

Lemma StronglySorted_map_inv {A B : Type} (f : A -> B) (R : B -> B -> Prop)
  (l : list A) :
  StronglySorted R (map f l) -> StronglySorted (fun a b => R (f a) (f b)) l.
Proof.
  induction l as [|x l IH]; simpl; intros H; [constructor|].
  apply StronglySorted_inv in H. destruct H as [Hs Hx].
  constructor; [now apply IH|]. now rewrite Forall_map in Hx.
Qed.

Lemma groupby_mean_spec (df : DataFrame) (by_ col : string) (ic iv : nat) :
  index_of by_ (columns df) = Some ic ->
  index_of col (columns df) = Some iv ->
  numeric_series (column_at iv df) ->
  exists res,
    groupby_mean df by_ col = Some res
    /\ map fst res = group_keys (column_at ic df)
    /\ Forall (fun e =>
                 series_mean
                   (map (cell iv)
                      (filter (fun r => value_eqb (cell ic r) (fst e))
                         (rows df)))
                 = Some (snd e)) res.
Proof.
  intros Hic Hiv Hnum. unfold groupby_mean, getitem. rewrite Hic, Hiv. simpl.
  destruct (proj1 (numbers_numeric _) Hnum) as [l ->].
  destruct (sequence_map
              (fun k => option_map (pair k)
                          (series_mean
                             (group_values k (column_at ic df)
                                (column_at iv df))))
              (group_keys (column_at ic df))) as (res & Hres & Hall).
  { intros k _. rewrite group_values_rows.
    destruct (series_mean_defined
                (map (cell iv)
                   (filter (fun r => value_eqb (cell ic r) k) (rows df))))
      as [m ->]; [now apply numeric_series_filter | now eexists]. }
  exists res. split; [exact Hres|]. clear Hres.
  induction Hall as [|k e ks es Hke _ IH]; [split; [reflexivity | constructor]|].
  destruct IH as [IH1 IH2]. rewrite group_values_rows in Hke.
  destruct (series_mean _) as [m|] eqn:Hm; [|discriminate].
  injection Hke as <-. simpl. split; [now rewrite IH1 | now constructor].
Qed.

(** ** The aggregator *)

Lemma aggregate_spec (fdf : DataFrame) (col : string) (ic iv : nat) :
  index_of "coursename" (columns fdf) = Some ic ->
  index_of col (columns fdf) = Some iv ->
  numeric_series (column_at iv fdf) ->
  exists grouped res,
    groupby_mean fdf "coursename" col = Some grouped
    /\ aggregate fdf col = Some res
    /\ res = sort_values false grouped
    /\ map fst grouped = group_keys (column_at ic fdf)
    /\ Forall (fun e =>
                 series_mean
                   (map (cell iv)
                      (filter (fun r => value_eqb (cell ic r) (fst e))
                         (rows fdf)))
                 = Some (snd e)) grouped.
Proof.
  intros Hic Hiv Hnum.
  destruct (groupby_mean_spec fdf "coursename" col ic iv Hic Hiv Hnum)
    as (grouped & Hg & Hkeys & Hmeans).
  exists grouped, (sort_values false grouped).
  unfold aggregate. rewrite Hg. repeat split; trivial.
Qed.




(** The grouping forgets the order of the rows: the two orders of the
    rows of [tie_frame] give the same grouped means, so nothing computed
    from them can follow the order of first appearance. *)
Lemma grouping_forgets_row_order :
  groupby_mean tie_frame "coursename" "sessionsperweek"
  = groupby_mean (mkDF (columns tie_frame) (rev (rows tie_frame)))
      "coursename" "sessionsperweek".
Proof. reflexivity. Qed.

(** ** The order of the rows *)









Section SortRelated.
Context {A : Type} (R : A -> A -> Prop).



Context (leb : A -> A -> bool).
Hypothesis leb_related :
  forall a a' b b', R a a' -> R b b' -> leb a b = leb a' b'.


End SortRelated.




(** ** The chart dispatch *)

Lemma mem_In (x : string) (l : list string) : mem x l = true <-> In x l.
Proof.
  unfold mem. rewrite existsb_exists. split.
  - intros (y & Hy & E). apply String.eqb_eq in E. now subst.
  - intros H. exists x. split; [exact H | apply String.eqb_refl].
Qed.

(** C7. Step 7 draws a chart only when both [usersatisfaction] and
    [coursecompletion] are in the numeric column set, and then the chart of
    the selected kind; when one of them is absent it shows the heading and
    the one informational message, no chart, for every chart kind; and the
    run of the script is then the run of the other steps on the same
    frame with that message in the place of step 7. *)
Theorem C7_chart_requires_both_columns :
  (forall kind numeric_cols filtered_df out c,
      step7 kind numeric_cols filtered_df = Some out ->
      In (Pyplot c) out ->
      In "usersatisfaction" numeric_cols
      /\ In "coursecompletion" numeric_cols
      /\ is_chart_of kind c
      /\ out = [Subheader "Visualize User Satisfaction vs Course Completion";
                Pyplot c])
  /\ (forall kind numeric_cols filtered_df,
        ~ (In "usersatisfaction" numeric_cols
           /\ In "coursecompletion" numeric_cols) ->
        step7 kind numeric_cols filtered_df
        = Some [Subheader "Visualize User Satisfaction vs Course Completion";
                Info insufficient_columns])
  /\ (forall raw sel kind df numeric_cols out23 vars out4,
        steps23 raw = Some (df, numeric_cols, out23) ->
        step4 df numeric_cols sel = Some (vars, out4) ->
        ~ (In "usersatisfaction" numeric_cols
           /\ In "coursecompletion" numeric_cols) ->
        dashboard raw sel kind
        = (out5 <- step5 numeric_cols (var_filtered_df vars) ;;
           out6 <- step6 numeric_cols (var_filtered_df vars) ;;
           out8 <- step8 numeric_cols (var_filtered_df vars) ;;
           Some (out23 ++ out4 ++ out5 ++ out6
                 ++ [Subheader
                       "Visualize User Satisfaction vs Course Completion";
                     Info insufficient_columns]
                 ++ out8))).
Proof.
  assert (Habsent : forall kind numeric_cols filtered_df,
            ~ (In "usersatisfaction" numeric_cols
               /\ In "coursecompletion" numeric_cols) ->
            step7 kind numeric_cols filtered_df
            = Some [Subheader
                      "Visualize User Satisfaction vs Course Completion";
                    Info insufficient_columns]).
  { intros kind ncols fdf Hno. unfold step7.
    destruct (mem "usersatisfaction" ncols) eqn:Hu;
      destruct (mem "coursecompletion" ncols) eqn:Hc; trivial.
    exfalso. apply Hno. split; now apply mem_In. }
  split; [|split; [exact Habsent|]].
  - intros kind ncols fdf out c H Hin. unfold step7 in H.
    destruct (mem "usersatisfaction" ncols) eqn:Hu;
      destruct (mem "coursecompletion" ncols) eqn:Hc; simpl in H;
      try (injection H as <-; simpl in Hin;
           destruct Hin as [Hin|[Hin|[]]]; discriminate).
    apply mem_In in Hu, Hc. split; [exact Hu|]. split; [exact Hc|].
    assert (Hkind : forall c', match kind with
                               | ScatterPlot => scatter_plot fdf
                               | LineChart => line_chart fdf
                               | PieChart => pie_chart fdf
                               end = Some c' -> is_chart_of kind c').
    { intros c' Hc'. destruct kind; simpl.
      - unfold scatter_plot in Hc'.
        destruct (getitem fdf "coursecompletion"); [|discriminate].
        destruct (getitem fdf "usersatisfaction"); [|discriminate].
        destruct (getitem fdf "coursename"); [|discriminate].
        now injection Hc' as <-.
      - unfold line_chart in Hc'.
        destruct (getitem fdf "coursename"); [|discriminate].
        destruct (getitem fdf "coursecompletion"); [|discriminate].
        destruct (getitem fdf "usersatisfaction"); [|discriminate].
        now injection Hc' as <-.
      - unfold pie_chart in Hc'.
        destruct (groupby_mean fdf "coursename" "coursecompletion");
          [|discriminate].
        destruct (pie l); [|discriminate]. now injection Hc' as <-. }
    destruct (match kind with
              | ScatterPlot => scatter_plot fdf
              | LineChart => line_chart fdf
              | PieChart => pie_chart fdf
              end) as [c'|]; [|discriminate].
    injection H as <-. simpl in Hin.
    destruct Hin as [Hin|[Hin|[]]]; [discriminate|].
    injection Hin as ->. split; [now apply Hkind | reflexivity].
  - intros raw sel kind df ncols out23 vars out4 H23 H4 Hno.
    unfold dashboard. rewrite H23, H4.
    assert (Hn : var_numeric_cols vars = ncols).
    { unfold step4 in H4. destruct (courses df); [|discriminate].
      destruct (filter_courses df sel); [|discriminate].
      destruct (showing sel); [|discriminate]. now injection H4 as <- _. }
    rewrite Hn, (Habsent kind ncols _ Hno).
    destruct (step5 ncols (var_filtered_df vars)); reflexivity.
Qed.

(** ** The insights *)

Lemma first_max_some (s : list entry) :
  forall best k q,
    first_max best s = Some (k, q) ->
    (best = Some (k, q) \/ In (k, VNum q) s)
    /\ (forall k' q', In (k', VNum q') s -> q' <= q)
    /\ (forall k0 b, best = Some (k0, b) -> b <= q).
Proof.
  induction s as [|[k1 v] s IH]; intros best k q H; simpl in H.
  - subst best. split; [now left|]. split; [intros ? ? []|].
    intros k0 b [= <- <-]. apply Qle_refl.
  - destruct v as [|q1|t].
    + destruct (IH _ _ _ H) as ([Hb|Hin] & Hall & Hbest).
      * split; [now left|]. split; trivial.
        intros k' q' [Hx|Hx]; [discriminate | eauto].
      * split; [right; now right|]. split; trivial.
        intros k' q' [Hx|Hx]; [discriminate | eauto].
    + destruct best as [[k0 b]|].
      * destruct (Qle_bool q1 b) eqn:Hle.
        -- destruct (IH _ _ _ H) as (Hfrom & Hall & Hbest).
           apply Qle_bool_iff in Hle.
           assert (Hbq : b <= q) by (eapply Hbest; reflexivity).
           split; [destruct Hfrom; [now left | right; now right]|].
           split; trivial.
           intros k' q' [Hx|Hx]; [|eauto].
           injection Hx as <- <-. eapply Qle_trans; eassumption.
        -- destruct (IH _ _ _ H) as (Hfrom & Hall & Hbest).
           assert (Hq1 : q1 <= q) by (eapply Hbest; reflexivity).
           assert (Hb : b <= q1).
           { apply Qlt_le_weak, Qnot_le_lt. intros Hc.
             apply Qle_bool_iff in Hc. congruence. }
           split.
           ++ right. destruct Hfrom as [[= <- <-]|Hin];
                [now left | now right].
           ++ split.
              ** intros k' q' [Hx|Hx]; [|eauto]. now injection Hx as <- <-.
              ** intros k2 b2 [= <- <-]. eapply Qle_trans; eassumption.
      * destruct (IH _ _ _ H) as (Hfrom & Hall & Hbest).
        assert (Hq1 : q1 <= q) by (eapply Hbest; reflexivity).
        split.
        -- right. destruct Hfrom as [[= <- <-]|Hin]; [now left | now right].
        -- split; [|discriminate].
           intros k' q' [Hx|Hx]; [|eauto]. now injection Hx as <- <-.
    + destruct (IH _ _ _ H) as ([Hb|Hin] & Hall & Hbest).
      * split; [now left|]. split; trivial.
        intros k' q' [Hx|Hx]; [discriminate | eauto].
      * split; [right; now right|]. split; trivial.
        intros k' q' [Hx|Hx]; [discriminate | eauto].
Qed.

Lemma first_max_none (s : list entry) :
  forall best, first_max best s = None ->
               best = None /\ forall k q, ~ In (k, VNum q) s.
Proof.
  induction s as [|[k1 v] s IH]; intros best H; simpl in H.
  - split; [exact H | intros ? ? []].
  - destruct v as [|q1|t].
    + destruct (IH _ H) as [Hb Hno]. split; trivial.
      intros k q [Hx|Hx]; [discriminate | now apply (Hno k q)].
    + destruct best as [[k0 b]|].
      * destruct (Qle_bool q1 b); destruct (IH _ H); discriminate.
      * destruct (IH _ H); discriminate.
    + destruct (IH _ H) as [Hb Hno]. split; trivial.
      intros k q [Hx|Hx]; [discriminate | now apply (Hno k q)].
Qed.

Lemma top_course_spec (fdf : DataFrame) (col : string) (ic iv : nat) :
  index_of "coursename" (columns fdf) = Some ic ->
  index_of col (columns fdf) = Some iv ->
  numeric_series (column_at iv fdf) ->
  (exists r, In r (rows fdf) /\ is_missing (cell ic r) = false) ->
  exists c, top_course fdf col = Some c /\ is_top_course fdf col c.
Proof.
  intros Hic Hiv Hnum (r & Hr & Hm).
  destruct (groupby_mean_spec fdf "coursename" col ic iv Hic Hiv Hnum)
    as (means & Hg & Hkeys & Hmeans).
  assert (Hne : means <> []).
  { intros ->. simpl in Hkeys.
    assert (Hin : InA value_eq (cell ic r) (group_keys (column_at ic fdf))).
    { apply group_keys_InA. split; trivial.
      apply InA_alt. exists (cell ic r). split; [reflexivity|].
      unfold column_at. now apply in_map. }
    rewrite <- Hkeys in Hin. inversion Hin. }
  unfold top_course, is_top_course. rewrite Hg. unfold idxmax.
  destruct means as [|e means]; [congruence|].
  destruct (first_max None (e :: means)) as [[k q]|] eqn:Hmax.
  - exists k. split; trivial. exists (e :: means). split; trivial. left.
    destruct (first_max_some _ _ _ _ Hmax) as ([Hb|Hin] & Hall & _);
      [discriminate|].
    exists q. now split.
  - exists VNaN. split; trivial. exists (e :: means). split; trivial. right.
    split; trivial. intros x Hx.
    destruct (first_max_none _ _ Hmax) as [_ Hno].
    rewrite Forall_forall in Hmeans.
    assert (Hnumx := series_mean_numeric _ _ (Hmeans x Hx)).
    destruct x as [kx [|qx|tx]]; simpl in *; trivial.
    + exfalso. now apply (Hno kx qx).
    + discriminate.
Qed.

(** C8 fails as stated: [nameless_frame] is not empty and [sessionsperweek]
    is in the numeric column set, yet no statement is emitted: no row names
    a course, the grouped means are empty and [idxmax] raises.  The frame
    is what the filter hands over when the selection is empty. *)
Lemma C8_counterexample_no_course :
  empty nameless_frame = false
  /\ In "sessionsperweek" ["sessionsperweek"]
  /\ step8 ["sessionsperweek"] nameless_frame = None
  /\ filter_courses nameless_frame [] = Some nameless_frame
  /\ dashboard nameless_frame [] ScatterPlot = None.
Proof. repeat split; simpl; auto. Qed.

(** C8, amended.  On an empty filtered frame step 8 emits the one "no
    data" notice and nothing else.  On a filtered frame that is not empty,
    has a row that names a course, and holds the columns of the numeric
    column set as numeric columns, step 8 emits the heading, the statement
    on [sessionsperweek] exactly when that column is in the numeric column
    set, the statement on [coursecompletion] exactly when that column is,
    and the closing remark, and no notice; each statement names a course
    whose mean no other course exceeds. *)
Theorem C8_insight_reporter (numeric_cols : list string)
  (filtered_df : DataFrame) :
  (empty filtered_df = true ->
   step8 numeric_cols filtered_df = Some [Warning no_data])
  /\ (empty filtered_df = false ->
      forall ic,
        index_of "coursename" (columns filtered_df) = Some ic ->
        (exists r, In r (rows filtered_df) /\ is_missing (cell ic r) = false) ->
        (forall col, In col numeric_cols ->
           exists iv, index_of col (columns filtered_df) = Some iv
                      /\ numeric_series (column_at iv filtered_df)) ->
        exists e1 e2,
          step8 numeric_cols filtered_df
          = Some ([Subheader "Key Insights"] ++ e1 ++ e2
                  ++ [Markdown ClosingRemark])
          /\ (In "sessionsperweek" numeric_cols ->
              exists c, e1 = [Markdown (TopSessions c)]
                        /\ is_top_course filtered_df "sessionsperweek" c)
          /\ (~ In "sessionsperweek" numeric_cols -> e1 = [])
          /\ (In "coursecompletion" numeric_cols ->
              exists c, e2 = [Markdown (TopCompletion c)]
                        /\ is_top_course filtered_df "coursecompletion" c)
          /\ (~ In "coursecompletion" numeric_cols -> e2 = [])).
Proof.
  split.
  - intros He. unfold step8. now rewrite He.
  - intros He ic Hic Hrow Hcols. unfold step8. rewrite He. simpl negb.
    cbv iota.
    assert (Htop : forall col, mem col numeric_cols = true ->
              exists c, top_course filtered_df col = Some c
                        /\ is_top_course filtered_df col c).
    { intros col Hcol. apply mem_In in Hcol.
      destruct (Hcols col Hcol) as (iv & Hiv & Hnum).
      now apply (top_course_spec filtered_df col ic iv). }
    destruct (mem "sessionsperweek" numeric_cols) eqn:Hs;
      destruct (mem "coursecompletion" numeric_cols) eqn:Hc.
    + destruct (Htop _ Hs) as (c1 & -> & H1).
      destruct (Htop _ Hc) as (c2 & -> & H2).
      exists [Markdown (TopSessions c1)], [Markdown (TopCompletion c2)].
      apply mem_In in Hs, Hc.
      repeat split; trivial; try tauto; intros _; eauto.
    + destruct (Htop _ Hs) as (c1 & -> & H1).
      exists [Markdown (TopSessions c1)], [].
      assert (Hc' : ~ In "coursecompletion" numeric_cols).
      { intros Hin. apply mem_In in Hin. congruence. }
      apply mem_In in Hs.
      repeat split; trivial; try tauto; intros _; eauto.
    + destruct (Htop _ Hc) as (c2 & -> & H2).
      exists [], [Markdown (TopCompletion c2)].
      assert (Hs' : ~ In "sessionsperweek" numeric_cols).
      { intros Hin. apply mem_In in Hin. congruence. }
      apply mem_In in Hc.
      repeat split; trivial; try tauto; intros _; eauto.
    + exists [], [].
      assert (Hs' : ~ In "sessionsperweek" numeric_cols).
      { intros Hin. apply mem_In in Hin. congruence. }
      assert (Hc' : ~ In "coursecompletion" numeric_cols).
      { intros Hin. apply mem_In in Hin. congruence. }
      repeat split; trivial; tauto.
Qed.

(** ** The pie *)

Lemma round_close_Z (D f r z : Z) :
  (0 <= r < D)%Z ->
  z = match (2 * r ?= D)%Z with
      | Lt => f
      | Gt => (f + 1)%Z
      | Eq => if Z.even f then f else (f + 1)%Z
      end ->
  (- D <= (z * D + - (D * f + r) * 1) * 2 <= D)%Z.
Proof.
  intros Hr ->. destruct (Z.compare_spec (2 * r) D) as [H|H|H];
    [destruct (Z.even f)| |]; lia.
Qed.

Lemma round_half_even_close (q : Q) :
  Qabs (inject_Z (round_half_even q) - q) <= 1 # 2.
Proof.
  destruct q as [n d]. apply Qabs_Qle_condition.
  pose proof (Z.div_mod n (Zpos d) ltac:(lia)) as Hdm.
  pose proof (Z.mod_pos_bound n (Zpos d) ltac:(lia)) as Hr.
  pose proof (round_close_Z (Zpos d) (n / Zpos d) (n mod Zpos d)
                (round_half_even (n # d)) Hr eq_refl) as H.
  rewrite <- Hdm in H.
  unfold Qle, Qminus, Qplus, Qopp, inject_Z. simpl. exact H.
Qed.

Lemma autopct_close (x : Q) : Qabs (autopct x - x) <= 1 # 20.
Proof.
  unfold autopct.
  pose proof (round_half_even_close (10 * x)) as H.
  apply Qabs_Qle_condition in H. apply Qabs_Qle_condition.
  set (z := round_half_even (10 * x)) in *.
  assert (E : z # 10 == inject_Z z * (1 # 10)).
  { unfold Qeq, Qmult, inject_Z. simpl. lia. }
  rewrite E. split; lra.
Qed.

Lemma wedge_sizes_spec (x : list entry) :
  forall sizes, wedge_sizes x = Some sizes ->
                Forall2 (fun e q => snd e = VNum q /\ 0 <= q) x sizes.
Proof.
  induction x as [|[k v] x IH]; simpl; intros sizes H.
  - injection H as <-. constructor.
  - destruct v as [|q|t]; try discriminate.
    destruct (Qle_bool 0 q) eqn:Hq; [|discriminate].
    destruct (wedge_sizes x) as [l|]; [|discriminate].
    injection H as <-. constructor; [|now apply IH].
    split; [reflexivity | now apply Qle_bool_iff].
Qed.

Lemma wedge_sizes_numbers (x : list entry) (sizes : list Q) :
  wedge_sizes x = Some sizes -> numbers (map snd x) = Some sizes.
Proof.
  intros H. apply wedge_sizes_spec in H.
  induction H as [|[k v] q x sizes [Hv _] _ IH]; simpl; trivial.
  simpl in Hv. subst v. now rewrite IH.
Qed.

Lemma wedge_sizes_intro (x : list entry) (sizes : list Q) :
  Forall2 (fun e q => snd e = VNum q /\ 0 <= q) x sizes ->
  wedge_sizes x = Some sizes.
Proof.
  induction 1 as [|[k v] q x l [Hv Hq] _ IH]; simpl; trivial.
  simpl in Hv. subst v. apply Qle_bool_iff in Hq. now rewrite Hq, IH.
Qed.

Lemma pie_spec (x : list entry) (wedges : list wedge) :
  pie x = Some wedges ->
  exists sizes,
    Forall2 (fun e q => snd e = VNum q /\ 0 <= q) x sizes
    /\ (x <> [] -> ~ Qsum sizes == 0)
    /\ Forall2 (slice_of (Qsum sizes)) x wedges.
Proof.
  unfold pie. intros H.
  destruct (wedge_sizes x) as [sizes|] eqn:Hs; [|discriminate].
  exists sizes.
  pose proof (wedge_sizes_spec _ _ Hs) as Hall. split; [exact Hall|].
  set (sx := Qsum sizes) in *.
  destruct (Qeq_bool sx 0) eqn:Hz; [discriminate|].
  injection H as <-. split.
  - intros _ Hc. apply Qeq_bool_iff in Hc. congruence.
  - clear Hs Hz. generalize sx. intros t.
    induction Hall as [|[k v] q x l [Hv Hq] _ IH]; simpl; constructor;
      trivial.
    simpl in Hv. subst v. split; [reflexivity|]. exists q.
    repeat split; trivial; simpl.
    + now eexists.
    + apply autopct_close.
Qed.

Lemma pie_defined (x : list entry) (sizes : list Q) :
  Forall2 (fun e q => snd e = VNum q /\ 0 <= q) x sizes ->
  ~ Qsum sizes == 0 ->
  exists wedges, pie x = Some wedges
                 /\ Forall2 (slice_of (Qsum sizes)) x wedges.
Proof.
  intros Hall Hsum.
  assert (Hp : exists wedges, pie x = Some wedges).
  { unfold pie. rewrite (wedge_sizes_intro _ _ Hall).
    destruct (Qeq_bool _ 0) eqn:Hz; [|eauto].
    apply Qeq_bool_iff in Hz. contradiction. }
  destruct Hp as [wedges Hp]. exists wedges. split; [exact Hp|].
  destruct (pie_spec _ _ Hp) as (sizes' & Hall' & _ & Hslices).
  assert (sizes' = sizes).
  { apply wedge_sizes_intro in Hall, Hall'. congruence. }
  now subst sizes'.
Qed.

Lemma getitem_index (df : DataFrame) (name : string) (s : list value) :
  getitem df name = Some s ->
  exists i, index_of name (columns df) = Some i /\ s = column_at i df.
Proof.
  unfold getitem. destruct (index_of name (columns df)) as [i|]; [|discriminate].
  intros [= <-]. now exists i.
Qed.

Lemma groupby_mean_inv (df : DataFrame) (by_ col : string)
  (means : list entry) :
  groupby_mean df by_ col = Some means ->
  exists ic iv,
    index_of by_ (columns df) = Some ic
    /\ index_of col (columns df) = Some iv
    /\ numeric_series (column_at iv df).
Proof.
  unfold groupby_mean. intros H.
  destruct (getitem df by_) as [keys|] eqn:Hk; [|discriminate].
  destruct (getitem df col) as [vals|] eqn:Hv; [|discriminate].
  destruct (getitem_index _ _ _ Hk) as (ic & Hic & _).
  destruct (getitem_index _ _ _ Hv) as (iv & Hiv & ->).
  exists ic, iv. split; trivial. split; trivial.
  apply numbers_numeric. destruct (numbers (column_at iv df)); [eauto|discriminate].
Qed.

Lemma slice_labels (total : Q) (means : list entry) (wedges : list wedge) :
  Forall2 (slice_of total) means wedges ->
  map wedge_label wedges = map fst means.
Proof.
  induction 1 as [|e w x l [Hl _] _ IH]; simpl; trivial.
  now rewrite Hl, IH.
Qed.

(** C9 fails as stated: [zero_frame] has two distinct courses, both with
    mean completion 0; the sizes handed to the pie sum to zero, no wedge
    can be sized and the chart is not drawn. *)
Lemma C9_counterexample_zero_means :
  groupby_mean zero_frame "coursename" "coursecompletion"
  = Some [(VStr "A", VNum 0); (VStr "B", VNum 0)]
  /\ pie_chart zero_frame = None
  /\ step7 PieChart ["coursecompletion"; "usersatisfaction"] zero_frame = None.
Proof. repeat split. Qed.

(** C9, amended.  When the per-course means of [coursecompletion] are not
    negative and their sum is not zero, the pie chart is drawn and has one
    wedge per distinct course of the frame; the wedge of a course takes the
    fraction mean / total of the disc, where the mean is the mean
    [coursecompletion] of the rows of the course and the total is the sum
    of the means of all courses; its label is a percentage with one
    decimal, the nearest to the exact percentage.  Conversely the chart is
    drawn only on such means.  With two courses averaging 80 and 40 the
    labels are 66.7 and 33.3. *)
Theorem C9_pie_proportions :
  (forall (filtered_df : DataFrame) (means : list entry) (sizes : list Q),
      groupby_mean filtered_df "coursename" "coursecompletion" = Some means ->
      Forall2 (fun e q => snd e = VNum q /\ 0 <= q) means sizes ->
      ~ Qsum sizes == 0 ->
      exists ic iv wedges,
        index_of "coursename" (columns filtered_df) = Some ic
        /\ index_of "coursecompletion" (columns filtered_df) = Some iv
        /\ pie_chart filtered_df = Some (Pie wedges)
        /\ NoDupA value_eq (map wedge_label wedges)
        /\ (forall c, InA value_eq c (map wedge_label wedges)
                      <-> is_missing c = false
                          /\ InA value_eq c (column_at ic filtered_df))
        /\ Forall (fun e =>
                     series_mean
                       (map (cell iv)
                          (filter (fun r => value_eqb (cell ic r) (fst e))
                             (rows filtered_df)))
                     = Some (snd e)) means
        /\ Forall2 (slice_of (Qsum sizes)) means wedges)
  /\ (forall (filtered_df : DataFrame) (wedges : list wedge),
        pie_chart filtered_df = Some (Pie wedges) ->
        exists means sizes,
          groupby_mean filtered_df "coursename" "coursecompletion" = Some means
          /\ Forall2 (fun e q => snd e = VNum q /\ 0 <= q) means sizes
          /\ (means <> [] -> ~ Qsum sizes == 0)
          /\ Forall2 (slice_of (Qsum sizes)) means wedges)
  /\ (exists wedges,
        pie_chart scenario_completion = Some (Pie wedges)
        /\ aggregate scenario_completion "coursecompletion"
           = Some [(VStr "A", VNum (160 # 2)); (VStr "B", VNum 40)]
        /\ Forall2 (fun w x => wedge_label w = fst x /\ wedge_pct w == snd x)
             wedges [(VStr "A", 667 # 10); (VStr "B", 333 # 10)]).
Proof.
  split; [|split].
  - intros fdf means sizes Hg Hall Hsum.
    destruct (groupby_mean_inv _ _ _ _ Hg) as (ic & iv & Hic & Hiv & Hnum).
    destruct (groupby_mean_spec fdf _ _ ic iv Hic Hiv Hnum)
      as (means' & Hg' & Hkeys & Hmeans).
    assert (means' = means) by congruence. subst means'.
    destruct (pie_defined means sizes Hall Hsum) as (wedges & Hp & Hslices).
    exists ic, iv, wedges.
    rewrite (slice_labels _ _ _ Hslices), Hkeys.
    split; [exact Hic|]. split; [exact Hiv|].
    split; [unfold pie_chart; now rewrite Hg, Hp|].
    split; [apply group_keys_NoDupA|].
    split; [intros c; apply group_keys_InA|].
    split; [exact Hmeans | exact Hslices].
  - intros fdf wedges H. unfold pie_chart in H.
    destruct (groupby_mean fdf "coursename" "coursecompletion")
      as [means|] eqn:Hg; [|discriminate].
    destruct (pie means) as [ws|] eqn:Hp; [|discriminate].
    injection H as <-.
    destruct (pie_spec _ _ Hp) as (sizes & Hall & Hsum & Hslices).
    now exists means, sizes.
  - eexists. split; [reflexivity|]. split; [reflexivity|].
    repeat constructor; reflexivity.
Qed.

(** ** The numeric column set along the script *)

(** The hypotheses the aggregator, the pie and the insights are proved
    under hold where the script calls them: every column of the numeric
    column set is a column of the filtered frame and holds numbers or
    missing cells only. *)

Lemma impute_preserves_numeric (df d : DataFrame) (c : string) (j : nat) :
  impute df c = Some d ->
  numeric_series (column_at j df) -> numeric_series (column_at j d).
Proof.
  unfold impute. destruct (index_of c (columns df)) as [i|]; [|discriminate].
  destruct (series_mean (column_at i df)) as [m|] eqn:Hm; [|discriminate].
  intros [= <-] Hj. apply numeric_fillna_at; trivial.
  eapply series_mean_numeric; eassumption.
Qed.

Lemma impute_numeric_here (df d : DataFrame) (c : string) :
  impute df c = Some d ->
  exists i, index_of c (columns d) = Some i /\ numeric_series (column_at i d).
Proof.
  intros H. pose proof H as H'. unfold impute in H.
  destruct (index_of c (columns df)) as [i|] eqn:Hi; [|discriminate].
  destruct (series_mean (column_at i df)) as [m|] eqn:Hm; [|discriminate].
  exists i. split; [injection H as <-; exact Hi|].
  apply (impute_preserves_numeric df d c i H').
  apply numbers_numeric. unfold series_mean in Hm.
  destruct (numbers (column_at i df)); [eauto | discriminate].
Qed.

Lemma impute_all_preserves_numeric (cols : list string) (j : nat) :
  forall df df',
    impute_all cols df = Some df' ->
    numeric_series (column_at j df) -> numeric_series (column_at j df').
Proof.
  induction cols as [|c cols IH]; simpl; intros df df' H Hj.
  - now injection H as <-.
  - destruct (impute df c) as [d|] eqn:Hd; [|discriminate].
    apply (IH _ _ H). eapply impute_preserves_numeric; eassumption.
Qed.

Lemma impute_all_numeric (cols : list string) :
  forall df df',
    impute_all cols df = Some df' ->
    forall c, In c cols ->
      exists i, index_of c (columns df') = Some i
                /\ numeric_series (column_at i df').
Proof.
  induction cols as [|c0 cols IH]; simpl; intros df df' H c Hc; [easy|].
  destruct (impute df c0) as [d|] eqn:Hd; [|discriminate].
  destruct Hc as [<-|Hc]; [|now apply (IH _ _ H)].
  destruct (impute_numeric_here _ _ _ Hd) as (i & Hi & Hnum).
  exists i. split.
  - now rewrite (impute_all_columns _ _ _ H).
  - eapply impute_all_preserves_numeric; eassumption.
Qed.

Lemma numeric_series_rows (i : nat) (l l' : list row) :
  (forall r, In r l' -> In r l) ->
  numeric_series (map (cell i) l) -> numeric_series (map (cell i) l').
Proof.
  unfold numeric_series. rewrite !Forall_map, !Forall_forall. auto.
Qed.

Lemma select_mask_In {A : Type} (mask : list bool) :
  forall (l : list A) x, In x (select_mask mask l) -> In x l.
Proof.
  induction mask as [|b mask IH]; intros [|y l] x H; simpl in *; try easy.
  destruct b; simpl in H; intuition.
Qed.

Lemma filter_courses_rows_In (df fdf : DataFrame) (sel : list value) :
  filter_courses df sel = Some fdf ->
  columns fdf = columns df /\ forall r, In r (rows fdf) -> In r (rows df).
Proof.
  unfold filter_courses. destruct sel as [|c sel].
  - intros [= <-]. now split.
  - destruct (getitem df "coursename") as [s|]; [|discriminate].
    intros [= <-]. split; [reflexivity|]. simpl. apply select_mask_In.
Qed.

Lemma numeric_column_set_invariant (raw df : DataFrame)
  (numeric_cols : list string) (out23 out4 : list event)
  (sel : list value) (vars : script_vars) :
  steps23 raw = Some (df, numeric_cols, out23) ->
  step4 df numeric_cols sel = Some (vars, out4) ->
  forall col, In col (var_numeric_cols vars) ->
    exists iv, index_of col (columns (var_filtered_df vars)) = Some iv
               /\ numeric_series (column_at iv (var_filtered_df vars)).
Proof.
  unfold steps23, clean, imputed, step4. intros H23 H4 col Hcol.
  destruct (impute_all _ _) as [before|] eqn:Hb; [|discriminate].
  simpl in H23. injection H23 as <- <- _.
  destruct (courses _); [|discriminate].
  destruct (filter_courses _ sel) as [fdf|] eqn:Hf; [|discriminate].
  destruct (showing sel); [|discriminate].
  injection H4 as <- _. simpl in *.
  destruct (impute_all_numeric _ _ _ Hb col Hcol) as (iv & Hiv & Hnum).
  destruct (filter_courses_rows_In _ _ _ Hf) as [Hc Hr].
  exists iv. rewrite Hc. split; [exact Hiv|].
  unfold column_at in *. eapply numeric_series_rows; [|exact Hnum].
  intros r Hin. apply Hr in Hin. simpl in Hin.
  eapply Subseq_In; [apply keep_first_Subseq | exact Hin].
Qed.

(** * The theorems at work on the sample frames *)

Lemma C1_column_names_normalized_witness :
  exists df,
    clean sample_raw = Some df
    /\ columns df = ["coursename"; "quizscore"; "sessionsperweek";
                     "coursecompletion"; "usersatisfaction"].
Proof.
  destruct (C1_column_names_normalized sample_raw) as (_ & _ & H & _).
  eexists. split; [reflexivity|].
  rewrite (H _ (or_intror eq_refl)). reflexivity.
Defined.

Lemma sample_raw_rectangular : rectangular sample_raw.
Proof. repeat constructor. Qed.

Lemma sample_raw_numeric :
  forall c j, In c all_numeric_cols ->
              index_of c (map normalize (columns sample_raw)) = Some j ->
              numeric_series (column_at j sample_raw).
Proof.
  intros c j [<-|[<-|[<-|[<-|[]]]]] H; vm_compute in H;
    injection H as <-; repeat constructor.
Qed.

Lemma sample_raw_labels : NoDup (map normalize (columns sample_raw)).
Proof. vm_compute. repeat constructor; simpl; intuition discriminate. Qed.

Lemma C2_imputation_with_column_mean_witness :
  exists df,
    clean sample_raw = Some df
    /\ Forall (fun v => is_missing v = false) (column_at 1 df).
Proof.
  destruct (C2_imputation_with_column_mean sample_raw "quizscore" 1
              sample_raw_rectangular sample_raw_labels sample_raw_numeric)
    as (before & df & l & _ & Hc & _ & _ & _ & Hall).
  - simpl. tauto.
  - reflexivity.
  - exists (VNum 7). split; [simpl; tauto | reflexivity].
  - exists df. split; assumption.
Defined.

Lemma C3_no_duplicate_rows_witness :
  exists before df,
    imputed sample_raw = Some before
    /\ clean sample_raw = Some df
    /\ NoDupA row_eq (rows df)
    /\ length (rows before) = 5%nat /\ length (rows df) = 4%nat.
Proof.
  eexists. eexists.
  split; [reflexivity|]. split; [reflexivity|].
  split; [|split; reflexivity].
  eapply (C3_no_duplicate_rows sample_raw); reflexivity.
Defined.

Lemma C4_filter_by_course_witness :
  exists fdf,
    filter_courses sample_df [VStr "B"] = Some fdf
    /\ rows fdf = [[VStr "B"; VNum 6; VNum 40; VNum 3];
                   [VStr "B"; VNum 4; VNum 50; VNum 5]]
    /\ filter_courses sample_df [VStr "C"; VStr "A"; VStr "B"] = Some sample_df.
Proof.
  destruct (C4_filter_by_course sample_df 0 eq_refl) as (H1 & H2 & _).
  destruct (H1 [VStr "B"]) as (fdf & Hf & _ & Hrows & _); [discriminate|].
  exists fdf. split; [exact Hf|]. split; [exact Hrows|].
  apply (H2 _ [VStr "B"; VStr "A"; VStr "C"]); [reflexivity|].
  intros c. rewrite !InA_alt. split; intros (y & Hy & Hin); exists y;
    (split; [exact Hy|]); simpl in *; tauto.
Defined.

Lemma sample_df_sessions_numeric : numeric_series (column_at 1 sample_df).
Proof. repeat constructor. Qed.



Lemma C7_chart_requires_both_columns_witness :
  (exists c, step7 PieChart ["coursecompletion"; "usersatisfaction"] sample_df
             = Some [Subheader
                       "Visualize User Satisfaction vs Course Completion";
                     Pyplot c]
             /\ is_chart_of PieChart c)
  /\ step7 LineChart ["coursecompletion"] sample_df
     = Some [Subheader "Visualize User Satisfaction vs Course Completion";
             Info insufficient_columns]
  /\ exists out, dashboard all_missing_frame [] LineChart = Some out
                 /\ In (Info insufficient_columns) out.
Proof.
  destruct C7_chart_requires_both_columns as (H1 & H2 & H3).
  split; [|split].
  - assert (E : exists c,
              step7 PieChart ["coursecompletion"; "usersatisfaction"] sample_df
              = Some [Subheader
                        "Visualize User Satisfaction vs Course Completion";
                      Pyplot c]) by (eexists; reflexivity).
    destruct E as [c E]. exists c. split; [exact E|].
    exact (proj1 (proj2 (proj2
             (H1 _ _ _ _ c E (or_intror (or_introl eq_refl)))))).
  - apply H2. simpl. intuition discriminate.
  - eexists. split.
    + lazymatch eval vm_compute in (steps23 all_missing_frame) with
      | Some (?d, ?n, ?o) =>
          lazymatch eval vm_compute in (step4 d n []) with
          | Some (?v, ?o4) =>
              rewrite (H3 all_missing_frame [] LineChart d n o v o4
                         eq_refl eq_refl)
          end
      end.
      * reflexivity.
      * simpl. intuition discriminate.
    + simpl. tauto.
Defined.

Lemma C8_insight_reporter_witness :
  step8 ["sessionsperweek"] (mkDF (columns sample_df) [])
  = Some [Warning no_data]
  /\ exists c,
       step8 ["sessionsperweek"] sample_df
       = Some [Subheader "Key Insights"; Markdown (TopSessions c);
               Markdown ClosingRemark]
       /\ is_top_course sample_df "sessionsperweek" c.
Proof.
  split.
  - apply (C8_insight_reporter ["sessionsperweek"]
             (mkDF (columns sample_df) [])). reflexivity.
  - destruct (C8_insight_reporter ["sessionsperweek"] sample_df) as [_ H].
    destruct (H eq_refl 0%nat eq_refl) as (e1 & e2 & Hout & H1 & _ & _ & H4).
    + exists [VStr "B"; VNum 6; VNum 40; VNum 3].
      split; [simpl; tauto | reflexivity].
    + intros col [<-|[]]. exists 1%nat.
      split; [reflexivity | apply sample_df_sessions_numeric].
    + destruct H1 as (c & -> & Htop); [simpl; tauto|].
      rewrite H4 in Hout by (simpl; intuition discriminate).
      exists c. split; [exact Hout | exact Htop].
Defined.

Lemma C9_pie_proportions_witness :
  exists wedges,
    pie_chart sample_df = Some (Pie wedges)
    /\ map wedge_label wedges = [VStr "A"; VStr "B"; VStr "C"]
    /\ Forall2 (slice_of (Qsum [80; 90 # 2; 60]))
         [(VStr "A", VNum 80); (VStr "B", VNum (90 # 2)); (VStr "C", VNum 60)]
         wedges.
Proof.
  destruct C9_pie_proportions as (H & _ & _).
  destruct (H sample_df
              [(VStr "A", VNum 80); (VStr "B", VNum (90 # 2));
               (VStr "C", VNum 60)]
              [80; 90 # 2; 60] eq_refl)
    as (ic & iv & wedges & _ & _ & Hw & _ & _ & _ & Hs).
  - repeat constructor; discriminate.
  - discriminate.
  - exists wedges. split; [exact Hw|]. split; [|exact Hs].
    apply (slice_labels _ _ _ Hs).
Defined.

Lemma C10_filter_is_ordered_subsequence_witness :
  exists fdf,
    filter_courses sample_df [VStr "B"; VStr "C"] = Some fdf
    /\ Subseq (rows fdf) (rows sample_df)
    /\ length (rows fdf) = 3%nat.
Proof.
  destruct (C10_filter_is_ordered_subsequence sample_df [] [VStr "B"; VStr "C"]
              0 eq_refl) as (fdf & Hf & _ & Hs & _).
  exists fdf. split; [exact Hf|]. split; [exact Hs|].
  assert (E : Some fdf = filter_courses sample_df [VStr "B"; VStr "C"])
    by now rewrite Hf.
  now injection E as ->.
Defined.


(** * Further properties of the script *)

(** ** The numeric column set (lines 36 and 37) *)

(** X1. The numeric column set holds exactly the known numeric names that some
    raw label normalises to, whatever its case and surrounding blanks;
    it lists them once each, in the order of the known names. *)
Theorem numeric_column_set_spec (raw : DataFrame) :
  (forall c, In c (numeric_cols_of (clean_column_names raw))
             <-> In c all_numeric_cols
                 /\ exists x, In x (columns raw) /\ lower (strip x) = c)
  /\ NoDup (numeric_cols_of (clean_column_names raw))
  /\ Subseq (numeric_cols_of (clean_column_names raw)) all_numeric_cols.
Proof.
  split; [|split].
  - intros c. unfold numeric_cols_of. rewrite filter_In.
    unfold in_columns. simpl. rewrite existsb_exists. split.
    + intros [Hc (y & Hy & E)]. split; trivial.
      apply String.eqb_eq in E. subst y. apply in_map_iff in Hy.
      destruct Hy as (x & Hx & Hin). now exists x.
    + intros [Hc (x & Hin & Hx)]. split; trivial.
      exists c. split; [|apply String.eqb_refl].
      apply in_map_iff. now exists x.
  - apply NoDup_filter, NoDup_all_numeric_cols.
  - apply filter_Subseq.
Qed.

(** ** Normalising labels twice (line 26) *)

Lemma lstrip_fixed (s : string) : starts_with_space s = false -> lstrip s = s.
Proof. destruct s as [|c s]; simpl; trivial. now intros ->. Qed.

Lemma rstrip_fixed (s : string) : ends_with_space s = false -> rstrip s = s.
Proof.
  induction s as [|c s IH]; trivial.
  destruct s as [|c' s'].
  - simpl. now intros ->.
  - intros H. change (ends_with_space (String c' s') = false) in H.
    change (rstrip (String c (String c' s')))
      with (match rstrip (String c' s') with
            | EmptyString =>
                if is_space c then EmptyString else String c EmptyString
            | r => String c r
            end).
    now rewrite (IH H).
Qed.

Lemma strip_fixed (s : string) :
  starts_with_space s = false -> ends_with_space s = false -> strip s = s.
Proof.
  intros Hs He. unfold strip. rewrite (lstrip_fixed s Hs).
  now apply rstrip_fixed.
Qed.

Lemma normalize_fixed (x : string) : normalize (normalize x) = normalize x.
Proof.
  destruct (normalize_no_surrounding_space x) as [Hs He].
  unfold normalize at 1. rewrite (strip_fixed _ Hs He).
  unfold normalize. apply lower_idem.
Qed.

(** X2. A label already normalised stays as it is, so renaming a second time
    changes no label. *)
Theorem normalize_idempotent :
  (forall x, normalize (normalize x) = normalize x)
  /\ (forall df, clean_column_names (clean_column_names df)
                 = clean_column_names df).
Proof.
  split; [exact normalize_fixed|].
  intros df. unfold clean_column_names, rename. simpl. f_equal.
  rewrite map_map. apply map_ext. exact normalize_fixed.
Qed.

(** ** What the imputation writes (lines 40 and 41) *)

Lemma Forall2_map_self {A : Type} (R : A -> A -> Prop) (f : A -> A)
  (l : list A) :
  (forall x, R x (f x)) -> Forall2 R l (map f l).
Proof. intros H. induction l; simpl; constructor; auto. Qed.

Lemma Forall2_compose {A : Type} (R : A -> A -> Prop) :
  (forall x y z, R x y -> R y z -> R x z) ->
  forall l1 l2 l3, Forall2 R l1 l2 -> Forall2 R l2 l3 -> Forall2 R l1 l3.
Proof.
  intros HR l1 l2 l3 H. revert l3.
  induction H; intros l3 H3; inversion H3; subst; constructor; eauto.
Qed.

Lemma filled_from_compose (labels cols : list string) (r1 r2 r3 : row) :
  filled_from labels cols r1 r2 -> filled_from labels cols r2 r3 ->
  filled_from labels cols r1 r3.
Proof.
  intros [L1 H1] [L2 H2]. split; [congruence|].
  intros j. destruct (H2 j) as [E2|[M2 N2]]; destruct (H1 j) as [E1|[M1 N1]].
  - left. congruence.
  - now right.
  - right. split; [congruence | exact N2].
  - now right.
Qed.

Lemma filled_from_weaken (labels cols cols' : list string) (r r' : row) :
  (forall c, In c cols -> In c cols') ->
  filled_from labels cols r r' -> filled_from labels cols' r r'.
Proof.
  intros Hincl [L H]. split; trivial. intros j.
  destruct (H j) as [E|[M (name & Hn & Hi)]]; [now left|].
  right. split; trivial. exists name. split; auto.
Qed.

Lemma impute_filled_from (df d : DataFrame) (c : string) :
  impute df c = Some d ->
  Forall2 (filled_from (columns df) [c]) (rows df) (rows d).
Proof.
  unfold impute. destruct (index_of c (columns df)) as [i|] eqn:Hi;
    [|discriminate].
  destruct (series_mean (column_at i df)) as [m|]; [|discriminate].
  intros [= <-]. simpl. apply Forall2_map_self. intros r. split.
  - apply length_update_nth.
  - intros j. destruct (cell_update_cases (fillna m) r i j) as [E|E];
      [now left|].
    destruct (cell j r) eqn:Hc; try (left; rewrite E; reflexivity).
    destruct (Nat.eq_dec i j) as [<-|Hij].
    + right. split; trivial. exists c. split; [now left | exact Hi].
    + left. rewrite cell_update_other by exact Hij. now rewrite Hc.
Qed.

Lemma impute_all_filled_from (cols : list string) :
  forall df d,
    impute_all cols df = Some d ->
    Forall2 (filled_from (columns df) cols) (rows df) (rows d).
Proof.
  induction cols as [|c cols IH]; simpl; intros df d H.
  - injection H as <-.
    induction (rows df); constructor; trivial.
    split; [reflexivity | now left].
  - destruct (impute df c) as [d1|] eqn:Hd; [|discriminate].
    eapply Forall2_compose; [apply filled_from_compose | |].
    + eapply Forall2_impl; [|apply (impute_filled_from _ _ _ Hd)].
      intros r r'. apply filled_from_weaken. intros x [<-|[]]. now left.
    + rewrite <- (impute_columns _ _ _ Hd).
      eapply Forall2_impl; [|apply (IH _ _ H)].
      intros r r'. apply filled_from_weaken. intros x Hx. now right.
Qed.

(** X3. The imputation keeps the number of rows and the length of every row,
    and changes a cell only if the cell was missing and stands in a column
    of the numeric column set: a cell that holds a value, and every cell of
    the other columns, is as it was in the raw frame. *)
Theorem imputation_only_fills_missing (raw before : DataFrame) :
  imputed raw = Some before ->
  columns before = map normalize (columns raw)
  /\ length (rows before) = length (rows raw)
  /\ Forall2 (filled_from (columns before)
                (numeric_cols_of (clean_column_names raw)))
       (rows raw) (rows before).
Proof.
  unfold imputed. intros H.
  pose proof (impute_all_columns _ _ _ H) as Hc.
  pose proof (impute_all_filled_from _ _ _ H) as Hf.
  rewrite Hc. split; [reflexivity|]. split; [|exact Hf].
  symmetry. exact (Forall2_length Hf).
Qed.

(** ** A string in a numeric column (line 41) *)

Lemma fillna_at_keeps_string (i j : nat) (m : value) (df : DataFrame)
  (s : string) :
  In (VStr s) (column_at j df) -> In (VStr s) (column_at j (fillna_at i m df)).
Proof.
  unfold column_at, fillna_at. simpl. rewrite map_map, !in_map_iff.
  intros (r & Hr & Hin). exists r. split; trivial.
  destruct (cell_update_cases (fillna m) r i j) as [->| ->]; trivial.
  now rewrite Hr.
Qed.

Lemma numbers_string (l : list value) (s : string) :
  In (VStr s) l -> numbers l = None.
Proof.
  induction l as [|v l IH]; intros H; [inversion H|].
  destruct H as [->|H]; [reflexivity|].
  simpl. destruct v; trivial; now rewrite (IH H).
Qed.

Lemma impute_all_string (cols : list string) :
  forall df c j s,
    In c cols -> index_of c (columns df) = Some j ->
    In (VStr s) (column_at j df) ->
    impute_all cols df = None.
Proof.
  induction cols as [|c0 cols IH]; intros df c j s Hc Hj Hs; [inversion Hc|].
  simpl. destruct (impute df c0) as [d|] eqn:Hd; trivial.
  pose proof Hd as Hd'. unfold impute in Hd.
  destruct (index_of c0 (columns df)) as [i0|] eqn:Hi0; [|discriminate].
  destruct (series_mean (column_at i0 df)) as [m|] eqn:Hm; [|discriminate].
  injection Hd as <-.
  destruct Hc as [->|Hc].
  - assert (i0 = j) by congruence. subst i0.
    unfold series_mean in Hm. now rewrite (numbers_string _ _ Hs) in Hm.
  - apply (IH _ c j s Hc); [exact Hj | now apply fillna_at_keeps_string].
Qed.

(** X4. A known numeric column that is present and holds a string stops the
    script in the imputation loop: the cleaning yields no frame and the
    dashboard shows nothing. *)
Theorem string_in_numeric_column_stops (raw : DataFrame) (c s : string)
  (j : nat) :
  In c all_numeric_cols ->
  index_of c (map normalize (columns raw)) = Some j ->
  In (VStr s) (column_at j raw) ->
  clean raw = None
  /\ forall sel kind, dashboard raw sel kind = None.
Proof.
  intros Hc Hj Hs.
  assert (H : clean raw = None).
  { unfold clean, imputed.
    rewrite (impute_all_string _ (clean_column_names raw) c j s); trivial.
    apply filter_In. split; trivial. eapply index_of_mem_inv. exact Hj. }
  split; trivial. intros sel kind. unfold dashboard, steps23. now rewrite H.
Qed.


(** ** Cleaning a cleaned frame (lines 26 to 43) *)

Lemma nth_error_update_other {A : Type} (f : A -> A) (l : list A) :
  forall i j, i <> j -> nth_error (update_nth i f l) j = nth_error l j.
Proof.
  induction l as [|x l IH]; intros [|i] [|j] Hij; simpl; trivial;
    try congruence.
  apply IH. congruence.
Qed.

Lemma nth_error_update_same {A : Type} (f : A -> A) (l : list A) :
  forall i, nth_error (update_nth i f l) i = option_map f (nth_error l i).
Proof.
  induction l as [|x l IH]; intros [|i]; simpl; trivial.
Qed.

Lemma update_nth_fixed {A : Type} (f : A -> A) (l : list A) :
  forall i, (forall x, nth_error l i = Some x -> f x = x) ->
            update_nth i f l = l.
Proof.
  induction l as [|x l IH]; intros [|i] H; simpl; trivial.
  - now rewrite (H x eq_refl).
  - now rewrite IH.
Qed.

Lemma numbers_none_missing (s : list value) :
  numbers s = Some [] -> Forall (fun v => v = VNaN) s.
Proof.
  induction s as [|v s IH]; simpl; intros H; [constructor|].
  destruct v; try discriminate.
  - constructor; auto.
  - destruct (numbers s); discriminate.
Qed.

Lemma numbers_all_missing (s : list value) :
  Forall (fun v => v = VNaN) s -> numbers s = Some [].
Proof. induction 1 as [|v s -> _ IH]; simpl; trivial. Qed.

Lemma impute_settles (df d : DataFrame) (c : string) (i : nat) :
  impute df c = Some d -> index_of c (columns df) = Some i ->
  settled i (rows d).
Proof.
  unfold impute. intros H Hi. rewrite Hi in H.
  destruct (series_mean (column_at i df)) as [m|] eqn:Hm; [|discriminate].
  injection H as <-. simpl. unfold series_mean in Hm.
  destruct (numbers (column_at i df)) as [[|q l]|] eqn:Hn; try discriminate;
    injection Hm as <-.
  - right. apply numbers_none_missing in Hn. unfold column_at in Hn.
    rewrite Forall_map in *. eapply Forall_impl; [|exact Hn].
    intros r Hr. simpl in *.
    destruct (cell_update_cases (fillna VNaN) r i i) as [->| ->]; trivial.
    now rewrite Hr.
  - left. apply Forall_map, Forall_forall. intros r _.
    rewrite nth_error_update_same. destruct (nth_error r i) as [[| |]|];
      simpl; congruence.
Qed.

Lemma settled_fillna_other (i j : nat) (m : value) (l : list row) :
  i <> j -> settled j l -> settled j (map (update_nth i (fillna m)) l).
Proof.
  intros Hij [H|H]; [left|right]; apply Forall_map;
    (eapply Forall_impl; [|exact H]); intros r Hr; simpl in *.
  - now rewrite nth_error_update_other.
  - now rewrite cell_update_other.
Qed.

Lemma settled_sub (i : nat) (l l' : list row) :
  (forall r, In r l' -> In r l) -> settled i l -> settled i l'.
Proof.
  intros Hsub [H|H]; [left|right]; rewrite Forall_forall in *; auto.
Qed.

Lemma impute_all_keeps_settled (cols : list string) :
  forall df d c i,
    impute_all cols df = Some d ->
    index_of c (columns df) = Some i -> ~ In c cols ->
    settled i (rows df) -> settled i (rows d).
Proof.
  induction cols as [|c0 cols IH]; simpl; intros df d c i H Hi Hc Hs.
  - now injection H as <-.
  - destruct (impute df c0) as [d1|] eqn:Hd; [|discriminate].
    apply (IH d1 d c i H).
    + now rewrite (impute_columns _ _ _ Hd).
    + tauto.
    + unfold impute in Hd.
      destruct (index_of c0 (columns df)) as [i0|] eqn:Hi0; [|discriminate].
      destruct (series_mean _); [|discriminate]. injection Hd as <-. simpl.
      apply settled_fillna_other; trivial.
      intros ->. apply Hc. left. eapply index_of_inj; eassumption.
Qed.

Lemma impute_all_settles (cols : list string) :
  forall df d,
    impute_all cols df = Some d -> NoDup cols ->
    forall c i, In c cols -> index_of c (columns df) = Some i ->
                settled i (rows d).
Proof.
  induction cols as [|c0 cols IH]; simpl; intros df d H Hnd c i Hc Hi;
    [easy|].
  destruct (impute df c0) as [d1|] eqn:Hd; [|discriminate].
  inversion Hnd as [|? ? Hnotin Hnd']; subst.
  destruct Hc as [->|Hc].
  - apply (impute_all_keeps_settled cols d1 d c i H); trivial.
    + now rewrite (impute_columns _ _ _ Hd).
    + eapply impute_settles; eassumption.
  - apply (IH d1 d H Hnd' c i Hc). now rewrite (impute_columns _ _ _ Hd).
Qed.

Lemma settled_impute_fixed (df : DataFrame) (c : string) (i : nat) :
  index_of c (columns df) = Some i ->
  numeric_series (column_at i df) ->
  settled i (rows df) ->
  impute df c = Some df.
Proof.
  intros Hi Hnum Hs. unfold impute. rewrite Hi.
  destruct (series_mean_defined _ Hnum) as [m Hm]. rewrite Hm.
  unfold fillna_at. destruct df as [cols l]. simpl in *. do 2 f_equal.
  rewrite <- (map_id l) at 2. apply map_ext_in. intros r Hr.
  apply update_nth_fixed. intros x Hx.
  destruct Hs as [H|H]; rewrite Forall_forall in H.
  - destruct x; trivial. exfalso. now apply (H r Hr).
  - assert (Hall : Forall (fun v => v = VNaN) (column_at i (mkDF cols l))).
    { unfold column_at. simpl. apply Forall_map, Forall_forall. exact H. }
    unfold series_mean in Hm. rewrite (numbers_all_missing _ Hall) in Hm.
    injection Hm as <-. now destruct x.
Qed.

Lemma impute_all_fixed (cols : list string) (df : DataFrame) :
  (forall c, In c cols -> impute df c = Some df) ->
  impute_all cols df = Some df.
Proof.
  induction cols as [|c cols IH]; simpl; intros H; trivial.
  rewrite (H c (or_introl eq_refl)). apply IH. auto.
Qed.

Section KeepFirstFixed.
Context {A : Type} (eqb : A -> A -> bool) (R : A -> A -> Prop).
Context `{Equivalence A R}.
Hypothesis eqb_spec : forall x y, eqb x y = true <-> R x y.

Lemma keep_first_fixed (l : list A) :
  forall seen,
    NoDupA R l -> (forall x, In x l -> ~ InA R x seen) ->
    keep_first eqb seen l = l.
Proof.
  induction l as [|x l IH]; intros seen Hnd Hfresh; simpl; trivial.
  inversion Hnd as [|? ? Hnotin Hnd']; subst.
  destruct (existsb (eqb x) seen) eqn:Hx.
  - exfalso. apply (Hfresh x (or_introl eq_refl)).
    now apply (existsb_eqb_InA eqb R eqb_spec).
  - f_equal. apply IH; trivial.
    intros y Hy Hin. inversion Hin as [? ? Hyx|? ? Hys]; subst.
    + apply Hnotin. apply InA_alt. exists y. split; [now symmetry | exact Hy].
    + apply (Hfresh y (or_intror Hy) Hys).
Qed.
End KeepFirstFixed.

(** X5. Cleaning is idempotent: the cleaner run on a frame it has produced
    succeeds and returns that frame, labels, cells and rows unchanged. *)
Theorem clean_idempotent (raw df : DataFrame) :
  clean raw = Some df -> clean df = Some df.
Proof.
  unfold clean, imputed. intros H.
  destruct (impute_all _ (clean_column_names raw)) as [before|] eqn:Hb;
    [|discriminate].
  injection H as <-.
  set (cols := numeric_cols_of (clean_column_names raw)) in *.
  pose proof (impute_all_columns _ _ _ Hb) as Hcols. simpl in Hcols.
  assert (Hnames : clean_column_names (drop_duplicates before)
                   = drop_duplicates before).
  { unfold clean_column_names, rename, drop_duplicates. simpl. f_equal.
    rewrite Hcols, map_map. apply map_ext. apply normalize_fixed. }
  rewrite Hnames.
  assert (Hsame : numeric_cols_of (drop_duplicates before) = cols).
  { unfold cols, numeric_cols_of, in_columns. simpl. now rewrite Hcols. }
  rewrite Hsame.
  assert (Hsub : forall r, In r (rows (drop_duplicates before)) ->
                           In r (rows before)).
  { intros r. simpl. apply Subseq_In, keep_first_Subseq. }
  rewrite impute_all_fixed.
  - simpl. f_equal. unfold drop_duplicates. simpl. f_equal.
    apply (keep_first_fixed row_eqb row_eq row_eqb_spec).
    + apply (keep_first_NoDupA row_eqb row_eq row_eqb_spec).
    + intros x _ Hin. inversion Hin.
  - intros c Hc.
    destruct (impute_all_numeric _ _ _ Hb c Hc) as (i & Hi & Hnum).
    apply (settled_impute_fixed _ c i); trivial.
    + unfold column_at in *. eapply numeric_series_rows; eassumption.
    + eapply settled_sub; [exact Hsub|].
      apply (impute_all_settles _ _ _ Hb
               (NoDup_filter _ NoDup_all_numeric_cols) c i Hc).
      now rewrite <- (impute_all_columns _ _ _ Hb).
Qed.

(** ** A frame without a course column (line 49) *)

(** X6. When no label normalises to [coursename] the script stops at the
    look-up of line 49, whatever is selected. *)
Theorem missing_coursename_stops (raw : DataFrame) (sel : list value)
  (kind : chart_kind) :
  index_of "coursename" (map normalize (columns raw)) = None ->
  dashboard raw sel kind = None.
Proof.
  intros Hi. unfold dashboard, steps23.
  destruct (clean raw) as [df|] eqn:Hc; trivial.
  unfold step4, courses, getitem.
  now rewrite (clean_columns _ _ Hc), Hi.
Qed.

(** ** The options of the course selector (line 49) *)


(** ** A selection that matches no row (lines 57 to 60, 69, 169 to 179) *)

Lemma filter_none {A : Type} (f : A -> bool) (l : list A) :
  (forall x, In x l -> f x = false) -> filter f l = [].
Proof.
  induction l as [|x l IH]; simpl; intros H; trivial.
  rewrite (H x (or_introl eq_refl)). apply IH. auto.
Qed.

(** X8. When courses are selected and none of them occurs in the frame, the
    filtered frame keeps the labels and has no row; every per-course
    average over it is the empty series, and the insight step shows the
    "no data" warning and nothing else. *)
Theorem selection_without_match (df : DataFrame) (sel : list value)
  (numeric_cols : list string) (i : nat) :
  index_of "coursename" (columns df) = Some i ->
  sel <> [] ->
  (forall c, In c sel -> ~ InA value_eq c (column_at i df)) ->
  exists fdf,
    filter_courses df sel = Some fdf
    /\ columns fdf = columns df
    /\ rows fdf = []
    /\ (forall col j, index_of col (columns df) = Some j ->
                      aggregate fdf col = Some [])
    /\ step8 numeric_cols fdf = Some [Warning no_data].
Proof.
  intros Hi Hsel Hno.
  exists (mkDF (columns df) []).
  assert (Hf : filter_courses df sel = Some (mkDF (columns df) [])).
  { rewrite (filter_courses_rows df i sel Hi Hsel). do 2 f_equal.
    apply filter_none. intros r Hr.
    destruct (isin sel (cell i r)) eqn:E; trivial.
    apply isin_spec, InA_alt in E. destruct E as (c & Hc & Hin).
    exfalso. apply (Hno c Hin). apply InA_alt. exists (cell i r).
    split; [now symmetry|]. unfold column_at. now apply in_map. }
  split; [exact Hf|]. split; [reflexivity|]. split; [reflexivity|]. split.
  - intros col j Hj. unfold aggregate, groupby_mean, getitem. simpl.
    now rewrite Hi, Hj.
  - reflexivity.
Qed.

(** ** The line "Showing data for" (line 62) *)

Lemma join_strings (sep : string) (l : list string) :
  join sep (map VStr l) = Some (String.concat sep l).
Proof.
  induction l as [|s l IH]; trivial.
  destruct l as [|t l]; trivial.
  change (join sep (map VStr (s :: t :: l)))
    with (option_map (fun r => (s ++ sep ++ r)%string)
            (join sep (map VStr (t :: l)))).
  now rewrite IH.
Qed.

Lemma join_none (sep : string) (items : list value) :
  join sep items = None
  <-> exists v, In v items /\ forall s, v <> VStr s.
Proof.
  induction items as [|v items IH].
  - split; [discriminate | intros (v & [] & _)].
  - destruct v as [|q|s].
    + split; [|reflexivity]. intros _. exists VNaN. split; [now left|easy].
    + split; [|reflexivity]. intros _. exists (VNum q). split; [now left|easy].
    + destruct items as [|w items].
      * split; [discriminate|].
        intros (v & [<-|[]] & Hv). now contradiction (Hv s).
      * change (join sep (VStr s :: w :: items))
          with (option_map (fun r => (s ++ sep ++ r)%string)
                  (join sep (w :: items))).
        destruct (join sep (w :: items)) as [r|] eqn:Hj.
        -- split; [discriminate|].
           intros (v & [<-|Hin] & Hv); [now contradiction (Hv s)|].
           destruct IH as [_ IH]. discriminate IH. now exists v.
        -- split; [|reflexivity]. intros _.
           destruct IH as [IH _]. destruct (IH eq_refl) as (v & Hin & Hv).
           exists v. split; [now right | exact Hv].
Qed.

Lemma showing_none (sel : list value) :
  showing sel = None <-> exists v, In v sel /\ forall s, v <> VStr s.
Proof.
  unfold showing. destruct sel as [|v sel].
  - split; [discriminate | intros (v & [] & _)].
  - rewrite <- (join_none ", ").
    destruct (join ", " (v :: sel)); split; trivial; discriminate.
Qed.

(** X9. The line names the selected courses joined by a comma and a blank when
    all of them are strings; one selected value that is not a string, such
    as the missing course of a row without a name, stops the script at
    this line. *)
Theorem showing_spec :
  (forall s l,
      showing (map VStr (s :: l))
      = Some ("Showing data for: " ++ String.concat ", " (s :: l))%string)
  /\ (forall sel, showing sel = None
                  <-> exists v, In v sel /\ forall s, v <> VStr s)
  /\ (forall raw sel kind v,
        In v sel -> (forall s, v <> VStr s) -> dashboard raw sel kind = None).
Proof.
  pose proof showing_none as Hnone.
  split; [|split; [exact Hnone|]].
  - intros s l. unfold showing.
    change (VStr s :: map VStr l) with (map VStr (s :: l)).
    now rewrite join_strings.
  - intros raw sel kind v Hin Hv. unfold dashboard.
    destruct (steps23 raw) as [[[df ncols] out23]|]; trivial.
    unfold step4. destruct (courses df); trivial.
    destruct (filter_courses df sel); trivial.
    assert (E : showing sel = None) by (apply Hnone; now exists v).
    now rewrite E.
Qed.

(** ** Filtering what is filtered (lines 57 to 60) *)

Lemma filter_filter {A : Type} (f g : A -> bool) (l : list A) :
  filter f (filter g l) = filter (fun x => g x && f x) l.
Proof.
  induction l as [|x l IH]; simpl; trivial.
  destruct (g x); simpl; [destruct (f x)|]; now rewrite IH.
Qed.

(** X10. Filtering the filtered frame by the same selection returns it as it
    is; filtering by two selections one after the other gives the rows
    whose course is in both, in either order of the two. *)
Theorem filter_courses_compose (df : DataFrame) (i : nat) :
  index_of "coursename" (columns df) = Some i ->
  (forall sel fdf, filter_courses df sel = Some fdf ->
                   filter_courses fdf sel = Some fdf)
  /\ (forall sel1 sel2 f1 f12,
        sel1 <> [] -> sel2 <> [] ->
        filter_courses df sel1 = Some f1 ->
        filter_courses f1 sel2 = Some f12 ->
        rows f12 = filter (fun r => isin sel1 (cell i r)
                                    && isin sel2 (cell i r)) (rows df)
        /\ exists f2, filter_courses df sel2 = Some f2
                      /\ filter_courses f2 sel1 = Some f12).
Proof.
  intros Hi. split.
  - intros sel fdf H. destruct sel as [|c sel]; [now injection H as <-|].
    rewrite (filter_courses_rows df i (c :: sel) Hi) in H by discriminate.
    injection H as <-.
    rewrite (filter_courses_rows _ i (c :: sel)) by (trivial; discriminate).
    simpl. do 2 f_equal. rewrite filter_filter. apply filter_ext.
    intros r. apply andb_diag.
  - intros sel1 sel2 f1 f12 H1 H2 Hf1 Hf12.
    rewrite (filter_courses_rows df i sel1 Hi H1) in Hf1. injection Hf1 as <-.
    match type of Hf12 with
    | filter_courses ?d _ = _ =>
        rewrite (filter_courses_rows d i sel2 Hi H2) in Hf12
    end.
    injection Hf12 as <-.
    simpl. split; [apply filter_filter|].
    eexists. split; [apply (filter_courses_rows df i sel2 Hi H2)|].
    match goal with
    | |- filter_courses ?d _ = _ => rewrite (filter_courses_rows d i sel1 Hi H1)
    end.
    simpl. do 2 f_equal.
    rewrite !filter_filter. apply filter_ext. intros r. apply andb_comm.
Qed.

(** ** The course of the key insight (lines 69, 74, 172 and 175) *)

Lemma first_max_split (s : list entry) :
  forall best k q,
    first_max best s = Some (k, q) ->
    (best = Some (k, q)
     /\ forall k' q', In (k', VNum q') s -> q' <= q)
    \/ (exists l1 l2,
          s = l1 ++ (k, VNum q) :: l2
          /\ (forall k' q', In (k', VNum q') l1 -> q' < q)
          /\ (forall k' q', In (k', VNum q') l2 -> q' <= q)
          /\ (forall k0 b, best = Some (k0, b) -> b < q)).
Proof.
  induction s as [|[k1 v] s IH]; intros best k q H.
  - left. split; [exact H | intros ? ? []].
  - destruct v as [|q1|t].
    + simpl in H.
      destruct (IH _ _ _ H) as [[Hb Hall]|(l1 & l2 & -> & H1 & H2 & H3)].
      * left. split; trivial.
        intros k' q' [Hx|Hin]; [discriminate | eauto].
      * right. exists ((k1, VNaN) :: l1), l2. split; [reflexivity|].
        split; [|split; trivial].
        intros k' q' [Hx|Hin]; [discriminate | eauto].
    + simpl in H. destruct best as [[k0 b]|].
      * destruct (Qle_bool q1 b) eqn:Hle.
        -- apply Qle_bool_iff in Hle.
           destruct (IH _ _ _ H) as [[Hb Hall]|(l1 & l2 & -> & H1 & H2 & H3)].
           ++ left. split; trivial. injection Hb as -> ->.
              intros k' q' [Hx|Hin]; [now injection Hx as _ <- | eauto].
           ++ right. exists ((k1, VNum q1) :: l1), l2. split; [reflexivity|].
              split; [|split; trivial].
              intros k' q' [Hx|Hin]; [|eauto]. injection Hx as _ <-.
              eapply Qle_lt_trans; [exact Hle | now apply (H3 k0 b)].
        -- assert (Hlt : b < q1).
           { apply Qnot_le_lt. intros Hc. apply Qle_bool_iff in Hc.
             congruence. }
           right.
           destruct (IH _ _ _ H) as [[Hb Hall]|(l1 & l2 & -> & H1 & H2 & H3)].
           ++ injection Hb as -> ->. exists [], s. split; [reflexivity|].
              split; [intros ? ? []|]. split; trivial.
              now intros ? ? [= _ <-].
           ++ exists ((k1, VNum q1) :: l1), l2. split; [reflexivity|].
              assert (Hq1 : q1 < q) by now apply (H3 k1 q1).
              split; [|split; trivial].
              ** intros k' q' [Hx|Hin]; [now injection Hx as _ <- | eauto].
              ** intros ? ? [= _ <-]. eapply Qlt_trans; eassumption.
      * right.
        destruct (IH _ _ _ H) as [[Hb Hall]|(l1 & l2 & -> & H1 & H2 & H3)].
        -- injection Hb as -> ->. exists [], s. split; [reflexivity|].
           split; [intros ? ? []|]. split; [trivial | discriminate].
        -- exists ((k1, VNum q1) :: l1), l2. split; [reflexivity|].
           assert (Hq1 : q1 < q) by now apply (H3 k1 q1).
           split; [|split; [trivial | discriminate]].
           intros k' q' [Hx|Hin]; [now injection Hx as _ <- | eauto].
    + simpl in H.
      destruct (IH _ _ _ H) as [[Hb Hall]|(l1 & l2 & -> & H1 & H2 & H3)].
      * left. split; trivial.
        intros k' q' [Hx|Hin]; [discriminate | eauto].
      * right. exists ((k1, VStr t) :: l1), l2. split; [reflexivity|].
        split; [|split; trivial].
        intros k' q' [Hx|Hin]; [discriminate | eauto].
Qed.

Lemma idxmax_nonempty (s : list entry) :
  s <> [] ->
  idxmax s = Some (match first_max None s with
                   | Some (k, _) => k
                   | None => VNaN
                   end).
Proof.
  destruct s as [|e s]; [congruence|]. intros _. unfold idxmax.
  now destruct (first_max None (e :: s)) as [[k q]|].
Qed.

Lemma top_course_position (fdf : DataFrame) (col : string)
  (means : list entry) (c : value) :
  groupby_mean fdf "coursename" col = Some means ->
  top_course fdf col = Some c ->
  (exists e, In e means /\ is_missing (snd e) = false) ->
  exists q l1 l2,
    means = l1 ++ (c, VNum q) :: l2
    /\ (forall k' q', In (k', VNum q') l1 -> q' < q)
    /\ (forall k' q', In (k', VNum q') l2 -> q' <= q).
Proof.
  intros Hg Htop (e & He & Hm).
  destruct (groupby_mean_inv _ _ _ _ Hg) as (ic & iv & Hic & Hiv & Hnum).
  destruct (groupby_mean_spec fdf _ _ ic iv Hic Hiv Hnum)
    as (means' & Hg' & _ & Hmeans).
  assert (means' = means) by congruence. subst means'.
  unfold top_course in Htop. rewrite Hg in Htop.
  rewrite idxmax_nonempty in Htop by (intros ->; inversion He).
  destruct (first_max None means) as [[k q]|] eqn:Hmax.
  - assert (c = k) by congruence. subst c.
    destruct (first_max_split _ _ _ _ Hmax)
      as [[Hb _]|(l1 & l2 & Hs & H1 & H2 & _)]; [discriminate|].
    now exists q, l1, l2.
  - exfalso. destruct (first_max_none _ _ Hmax) as [_ Hno].
    rewrite Forall_forall in Hmeans.
    pose proof (series_mean_numeric _ _ (Hmeans e He)) as Hn.
    destruct e as [ke [|qe|te]]; simpl in *; try discriminate.
    now apply (Hno ke qe).
Qed.

(** X11. When the course named by the key insight shares its mean with no
    other course, it is the first entry of the descending averages of the
    same column: the insight and the first bar of the chart agree. *)
Theorem top_course_is_first_bar (fdf : DataFrame) (col : string)
  (res : list entry) (c : value) :
  aggregate fdf col = Some res ->
  top_course fdf col = Some c ->
  (exists e, In e res /\ is_missing (snd e) = false) ->
  (forall m c' m', In (c, VNum m) res -> In (c', VNum m') res ->
                   m' == m -> c' = c) ->
  exists m rest, res = (c, VNum m) :: rest.
Proof.
  unfold aggregate. intros Hres Htop (e & He & Hm) Halone.
  destruct (groupby_mean fdf "coursename" col) as [means|] eqn:Hg;
    [|discriminate].
  injection Hres as <-.
  assert (Hperm : Permutation (sort_values false means) means)
    by apply sort_by_perm.
  destruct (top_course_position fdf col means c Hg Htop)
    as (q & l1 & l2 & Hs & H1 & H2).
  { exists e. split; trivial. eapply Permutation_in; eassumption. }
  destruct (groupby_mean_inv _ _ _ _ Hg) as (ic & iv & Hic & Hiv & Hnum).
  destruct (groupby_mean_spec fdf _ _ ic iv Hic Hiv Hnum)
    as (means' & Hg' & _ & Hmeans).
  assert (means' = means) by congruence. subst means'.
  rewrite Forall_forall in Hmeans.
  pose proof (sort_by_descending snd means) as Hsorted.
  fold (sort_values false means) in Hsorted.
  assert (Hc : In (c, VNum q) (sort_values false means)).
  { eapply Permutation_in; [symmetry; exact Hperm|].
    rewrite Hs. apply in_or_app. right. now left. }
  destruct (sort_values false means) as [|h t] eqn:Eres; [inversion Hc|].
  assert (Hh : In h means).
  { eapply Permutation_in; [exact Hperm | now left]. }
  destruct Hc as [->|Hc']; [now exists q, t|].
  apply StronglySorted_inv in Hsorted. destruct Hsorted as [_ Hall].
  rewrite Forall_forall in Hall.
  destruct (Hall _ Hc') as [Hx|[Hx Hle]]; [discriminate|].
  pose proof (series_mean_numeric _ _ (Hmeans h Hh)) as Hn.
  destruct h as [kh [|qh|th]]; simpl in *; try discriminate.
  apply Qle_bool_iff in Hle.
  assert (Hqh : qh == q).
  { apply Qle_antisym; trivial.
    rewrite Hs in Hh. apply in_app_or in Hh.
    destruct Hh as [Hh|[Hh|Hh]].
    - apply Qlt_le_weak. eapply H1; eassumption.
    - injection Hh as _ <-. apply Qle_refl.
    - eapply H2; eassumption. }
  rewrite (Halone q kh qh); [now exists qh, t | now right | now left | exact Hqh].
Qed.

(** X12. Among the courses that share the greatest mean the key insight names
    the one whose identifier comes first in the order of identifiers: no
    mean exceeds the mean of the named course, and a course with the same
    mean is the named one or comes after it. *)
Theorem top_course_tie_break (fdf : DataFrame) (col : string)
  (means : list entry) (c : value) :
  groupby_mean fdf "coursename" col = Some means ->
  top_course fdf col = Some c ->
  (exists e, In e means /\ is_missing (snd e) = false) ->
  exists m,
    In (c, VNum m) means
    /\ (forall c' m', In (c', VNum m') means -> m' <= m)
    /\ (forall c' m', In (c', VNum m') means -> m' == m ->
                      (c', VNum m') = (c, VNum m) \/ value_lt c c').
Proof.
  intros Hg Htop Hex.
  destruct (top_course_position fdf col means c Hg Htop Hex)
    as (q & l1 & l2 & Hs & H1 & H2).
  destruct (groupby_mean_inv _ _ _ _ Hg) as (ic & iv & Hic & Hiv & Hnum).
  destruct (groupby_mean_spec fdf _ _ ic iv Hic Hiv Hnum)
    as (means' & Hg' & Hkeys & _).
  assert (means' = means) by congruence. subst means'.
  pose proof (group_keys_sorted (column_at ic fdf)) as Hsorted.
  rewrite <- Hkeys in Hsorted. apply StronglySorted_map_inv in Hsorted.
  exists q. rewrite Hs in *. split; [apply in_or_app; right; now left|].
  split.
  - intros c' m' Hin. apply in_app_or in Hin.
    destruct Hin as [Hin|[Hin|Hin]].
    + apply Qlt_le_weak. eapply H1; eassumption.
    + injection Hin as _ <-. apply Qle_refl.
    + eapply H2; eassumption.
  - intros c' m' Hin Heq. apply in_app_or in Hin.
    destruct Hin as [Hin|[Hin|Hin]].
    + exfalso. specialize (H1 _ _ Hin). rewrite Heq in H1.
      now apply Qlt_irrefl in H1.
    + left. now symmetry.
    + right. apply in_split in Hin. destruct Hin as (la & lb & ->).
      exact (StronglySorted_split _ _ _ _ _ _ Hsorted).
Qed.

(** ** The pie as a whole (lines 150 to 158) *)

Lemma Qsum_scale (d : Q) (l : list Q) :
  Qsum (map (fun q => q / d) l) == Qsum l / d.
Proof.
  induction l as [|q l IH]; simpl.
  - unfold Qdiv. ring.
  - rewrite IH. unfold Qdiv. ring.
Qed.

Lemma Qsum_nonneg (l : list Q) : Forall (fun q => 0 <= q) l -> 0 <= Qsum l.
Proof.
  induction 1 as [|q l Hq _ IH]; simpl; [apply Qle_refl|].
  rewrite <- (Qplus_0_l 0). now apply Qplus_le_compat.
Qed.

Lemma slice_fractions (total : Q) (x : list entry) (sizes : list Q) :
  Forall2 (fun e q => snd e = VNum q /\ 0 <= q) x sizes ->
  forall wedges,
    Forall2 (slice_of total) x wedges ->
    map wedge_frac wedges = map (fun q => q / total) sizes.
Proof.
  induction 1 as [|e q x sizes [He _] _ IH]; intros wedges Hw;
    inversion Hw as [|? w ? ws Hs Hws]; subst; trivial.
  simpl. rewrite (IH _ Hws). f_equal.
  destruct Hs as (_ & m & Hm & _ & Hf & _). congruence.
Qed.

Lemma labels_near (wedges : list wedge) :
  Forall (fun w => Qabs (wedge_pct w - 100 * wedge_frac w) <= 1 # 20) wedges ->
  Qabs (Qsum (map wedge_pct wedges) - 100 * Qsum (map wedge_frac wedges))
  <= inject_Z (Z.of_nat (length wedges)) * (1 # 20).
Proof.
  induction 1 as [|w ws Hw _ IH].
  - now vm_compute.
  - apply Qabs_Qle_condition in Hw, IH. apply Qabs_Qle_condition.
    assert (E : inject_Z (Z.of_nat (length (w :: ws)))
                == inject_Z (Z.of_nat (length ws)) + 1).
    { simpl length. rewrite Nat2Z.inj_succ. unfold Z.succ.
      now rewrite inject_Z_plus. }
    rewrite E. simpl Qsum. simpl map. simpl Qsum. split; lra.
Qed.

(** X13. A pie that is drawn and has a wedge is a full pie: the fractions of
    its wedges are not negative and add up to 1, and the printed
    percentages add up to 100 within 0.05 per wedge. *)
Theorem pie_fills_disc (filtered_df : DataFrame) (wedges : list wedge) :
  pie_chart filtered_df = Some (Pie wedges) ->
  wedges <> [] ->
  Qsum (map wedge_frac wedges) == 1
  /\ Forall (fun w => 0 <= wedge_frac w) wedges
  /\ Qabs (Qsum (map wedge_pct wedges) - 100)
     <= inject_Z (Z.of_nat (length wedges)) * (1 # 20).
Proof.
  intros H Hne. unfold pie_chart in H.
  destruct (groupby_mean filtered_df "coursename" "coursecompletion")
    as [means|]; [|discriminate].
  destruct (pie means) as [ws|] eqn:Hp; [|discriminate].
  injection H as <-.
  destruct (pie_spec _ _ Hp) as (sizes & Hall & Hsum & Hslices).
  assert (Hm : means <> []).
  { intros ->. inversion Hslices. now subst. }
  specialize (Hsum Hm).
  assert (Hone : Qsum (map wedge_frac ws) == 1).
  { rewrite (slice_fractions _ _ _ Hall _ Hslices), Qsum_scale.
    now apply Qmult_inv_r. }
  assert (Hpos : 0 < Qsum sizes).
  { assert (Hge : 0 <= Qsum sizes).
    { apply Qsum_nonneg. clear - Hall.
      induction Hall as [|e q x l [_ Hq] _ IH]; constructor; trivial. }
    apply Qle_lteq in Hge. destruct Hge as [Hlt|Heq]; trivial.
    exfalso. apply Hsum. now symmetry. }
  split; [exact Hone|]. split.
  - clear - Hslices Hpos.
    induction Hslices as [|e w x l (_ & m & _ & Hm & Hf & _) _ IH];
      constructor; trivial.
    rewrite Hf. apply Qle_shift_div_l; trivial. now rewrite Qmult_0_l.
  - assert (Hnear : Forall (fun w => Qabs (wedge_pct w - 100 * wedge_frac w)
                                     <= 1 # 20) ws).
    { clear - Hslices.
      induction Hslices as [|e w x l (_ & m & _ & _ & _ & _ & Hc) _ IH];
        constructor; trivial. }
    apply labels_near in Hnear. rewrite Hone in Hnear.
    now rewrite Qmult_1_r in Hnear.
Qed.


(** ** The scatter plot and the line chart (lines 107 to 138) *)

Lemma combine_map {A B C : Type} (f : A -> B) (g : A -> C) (l : list A) :
  combine (map f l) (map g l) = map (fun x => (f x, g x)) l.
Proof. induction l; simpl; congruence. Qed.

Lemma select_mask_map_map {A B : Type} (f : A -> bool) (g : A -> B)
  (l : list A) :
  select_mask (map f l) (map g l) = map g (filter f l).
Proof.
  induction l as [|x l IH]; simpl; trivial.
  destruct (f x); simpl; now rewrite IH.
Qed.

Lemma filter_map_comm {A B : Type} (f : B -> bool) (g : A -> B) (l : list A) :
  filter f (map g l) = map g (filter (fun x => f (g x)) l).
Proof.
  induction l as [|x l IH]; simpl; trivial.
  destruct (f (g x)); simpl; now rewrite IH.
Qed.

Lemma sort_by_ascending {A : Type} (key : A -> value) (l : list A) :
  StronglySorted
    (fun a b => is_missing (key b) = true
                \/ (is_missing (key a) = false
                    /\ value_leb (key a) (key b) = true))
    (sort_by key true l).
Proof.
  unfold sort_by. apply StronglySorted_app.
  - eapply StronglySorted_impl;
      [|apply (insertion_sort_sorted (fun a b => value_leb (key a) (key b)))].
    + intros a b Ha _ Hab. right. split; [|exact Hab].
      apply (Permutation_in _ (insertion_sort_perm _ _)) in Ha.
      apply filter_In in Ha. destruct Ha as [_ Ha].
      now apply negb_true_iff.
    + intros a b. apply value_leb_total.
    + intros a b c. apply value_leb_trans.
  - induction l as [|x l IH]; simpl; [constructor|].
    destruct (is_missing (key x)) eqn:Hx; trivial.
    constructor; trivial. apply Forall_forall. intros y Hy.
    left. now apply filter_In in Hy.
  - intros a b _ Hb. left. now apply filter_In in Hb.
Qed.

Lemma filter_disjoint_perm {A : Type} (f g : A -> bool) (l : list A) :
  (forall x, f x = true -> g x = true -> False) ->
  Permutation (filter f l ++ filter g l) (filter (fun x => f x || g x) l).
Proof.
  intros Hd. induction l as [|x l IH]; simpl; [constructor|].
  destruct (f x) eqn:Hf; destruct (g x) eqn:Hg; simpl.
  - exfalso. eauto.
  - now constructor.
  - rewrite <- Permutation_middle. now constructor.
  - exact IH.
Qed.

Lemma py_eqb_spec (a b : value) :
  py_eqb a b = negb (is_missing a) && value_eqb a b.
Proof. destruct a, b; reflexivity. Qed.

(** Grouping rows by the keys of a list without repetition: every row
    with a key of the list lands in exactly one group. *)
Lemma groups_partition {A : Type} (key : A -> value) (l : list A)
  (ks : list value) :
  NoDupA value_eq ks ->
  Permutation
    (flat_map (fun c => filter (fun r => py_eqb (key r) c) l) ks)
    (filter (fun r => negb (is_missing (key r)) && isin ks (key r)) l).
Proof.
  induction 1 as [|k ks Hk Hnd IH]; simpl.
  - rewrite filter_none; [constructor|]. intros x _. apply andb_false_r.
  - rewrite IH.
    rewrite filter_disjoint_perm.
    + erewrite filter_ext; [reflexivity|]. intros r. simpl.
      rewrite py_eqb_spec. unfold isin. simpl.
      now destruct (is_missing (key r)), (value_eqb (key r) k).
    + intros r Hf Hg. rewrite py_eqb_spec in Hf.
      apply andb_true_iff in Hf, Hg. destruct Hf as [_ Hf], Hg as [_ Hg].
      apply value_eqb_spec in Hf. apply isin_spec in Hg.
      apply Hk. apply InA_alt in Hg. destruct Hg as (y & Hy & Hin).
      apply InA_alt. exists y. split; trivial.
      etransitivity; [symmetry; exact Hf | exact Hy].
Qed.

Lemma Permutation_flat_map_ext {A B : Type} (f g : A -> list B)
  (l : list A) :
  (forall x, In x l -> Permutation (f x) (g x)) ->
  Permutation (flat_map f l) (flat_map g l).
Proof.
  induction l as [|x l IH]; simpl; intros H; [constructor|].
  apply Permutation_app; auto.
Qed.

(** X14. The scatter plot has one point per row of the filtered frame, in the
    order of the rows.  The line chart has one line per course in order of
    first appearance; a line holds the points of the rows of its course,
    by ascending completion; the lines together hold each point of a row
    that names a course once, and no point of a row without a name. *)
Theorem line_chart_partitions_points (filtered_df : DataFrame)
  (points : list (value * value * value))
  (lines : list (value * list (value * value))) :
  scatter_plot filtered_df = Some (Scatter points) ->
  line_chart filtered_df = Some (Line lines) ->
  length points = length (rows filtered_df)
  /\ map fst lines = unique (map snd points)
  /\ Forall (fun cl =>
               Permutation (snd cl)
                 (map fst (filter (fun p => py_eqb (snd p) (fst cl)) points))
               /\ StronglySorted ascending_by_x (snd cl)) lines
  /\ Permutation (flat_map snd lines)
       (map fst (filter (fun p => negb (is_missing (snd p))) points)).
Proof.
  unfold scatter_plot, line_chart. intros Hs Hl.
  destruct (getitem filtered_df "coursecompletion") as [x|] eqn:Hx;
    [|discriminate].
  destruct (getitem filtered_df "usersatisfaction") as [y|] eqn:Hy;
    [|discriminate].
  destruct (getitem filtered_df "coursename") as [c|] eqn:Hc; [|discriminate].
  destruct (getitem_index _ _ _ Hx) as (ix & _ & ->).
  destruct (getitem_index _ _ _ Hy) as (iy & _ & ->).
  destruct (getitem_index _ _ _ Hc) as (ic & _ & ->).
  injection Hs as <-. injection Hl as <-.
  unfold column_at. set (l := rows filtered_df).
  set (pt := fun r : row => (cell ix r, cell iy r)).
  rewrite (combine_map (cell ix) (cell iy)).
  rewrite (combine_map pt (cell ic)).
  fold pt.
  assert (Hline : forall course,
            select_mask (map (fun v => py_eqb v course) (map (cell ic) l))
              (map pt l)
            = map fst (filter (fun p => py_eqb (snd p) course)
                         (map (fun r => (pt r, cell ic r)) l))).
  { intros course. rewrite map_map, select_mask_map_map.
    rewrite filter_map_comm. simpl.
    induction (filter (fun r => py_eqb (cell ic r) course) l); simpl;
      congruence. }
  split; [now rewrite length_map|]. split.
  - rewrite !map_map. simpl. now rewrite map_id.
  - split.
    + apply Forall_map, Forall_forall. intros course _. simpl.
      rewrite <- Hline. split; [apply sort_by_perm | apply sort_by_ascending].
    + rewrite flat_map_concat_map, map_map, <- flat_map_concat_map.
      simpl.
      rewrite (Permutation_flat_map_ext _
                 (fun course => map pt (filter
                     (fun r => py_eqb (cell ic r) course) l))).
      * assert (E : forall ks,
                  flat_map (fun course =>
                              map pt (filter (fun r => py_eqb (cell ic r) course)
                                        l)) ks
                  = map pt (flat_map (fun course =>
                              filter (fun r => py_eqb (cell ic r) course) l)
                              ks)).
        { induction ks as [|k ks IH]; simpl; trivial.
          now rewrite map_app, IH. }
        rewrite E, filter_map_comm, map_map. simpl.
        apply Permutation_map.
        rewrite (groups_partition (cell ic) l).
        -- erewrite filter_ext_in; [reflexivity|]. intros r Hr. simpl.
           assert (Hin : isin (unique (map (cell ic) l)) (cell ic r) = true).
           { apply isin_spec.
             destruct (keep_first_complete value_eqb value_eq value_eqb_spec
                         (map (cell ic) l) [] (cell ic r)) as [H|H]; trivial.
             - now apply in_map.
             - inversion H. }
           now rewrite Hin, andb_true_r.
        -- apply (keep_first_NoDupA value_eqb value_eq value_eqb_spec).
      * intros course _. rewrite sort_by_perm.
        rewrite map_map, select_mask_map_map. reflexivity.
Qed.

(** ** Where the script can stop after the filter (lines 68 to 144) *)

Lemma charts_defined (ncols : list string) (fdf : DataFrame) (ic : nat) :
  index_of "coursename" (columns fdf) = Some ic ->
  (forall col, In col ncols ->
     exists iv, index_of col (columns fdf) = Some iv
                /\ numeric_series (column_at iv fdf)) ->
  (exists out5, step5 ncols fdf = Some out5)
  /\ (exists out6, step6 ncols fdf = Some out6)
  /\ (forall kind, kind <> PieChart ->
                   exists out7, step7 kind ncols fdf = Some out7).
Proof.
  intros Hic Hinv.
  assert (Hagg : forall col, mem col ncols = true ->
                             exists a, aggregate fdf col = Some a).
  { intros col Hcol. apply mem_In in Hcol.
    destruct (Hinv col Hcol) as (iv & Hiv & Hnum).
    destruct (aggregate_spec fdf col ic iv Hic Hiv Hnum)
      as (_ & res & _ & Hres & _).
    now exists res. }
  assert (Hget : forall col, mem col ncols = true ->
                             exists s, getitem fdf col = Some s).
  { intros col Hcol. apply mem_In in Hcol.
    destruct (Hinv col Hcol) as (iv & Hiv & _).
    unfold getitem. rewrite Hiv. simpl. eauto. }
  split; [|split].
  - unfold step5.
    destruct (mem "sessionsperweek" ncols) eqn:Hs;
      destruct (mem "coursecompletion" ncols) eqn:Hc;
      try (destruct (Hagg _ Hs) as [a1 ->]);
      try (destruct (Hagg _ Hc) as [a2 ->]); eauto.
  - unfold step6. destruct ncols as [|c0 cs] eqn:E; [eauto|].
    rewrite <- E in *.
    destruct (sequence_map (getitem fdf) ncols) as (ys & -> & _); [|eauto].
    intros col Hcol. apply Hget. now apply mem_In.
  - intros kind Hk. unfold step7.
    destruct (mem "usersatisfaction" ncols) eqn:Hu;
      destruct (mem "coursecompletion" ncols) eqn:Hc; simpl; eauto.
    destruct (Hget _ Hu) as [y Hy]. destruct (Hget _ Hc) as [x Hx].
    assert (Hn : exists c, getitem fdf "coursename" = Some c).
    { unfold getitem. rewrite Hic. simpl. eauto. }
    destruct Hn as [c Hn].
    destruct kind; [| |congruence].
    + unfold scatter_plot. rewrite Hx, Hy, Hn. eauto.
    + unfold line_chart. rewrite Hx, Hy, Hn. eauto.
Qed.

Lemma step4_coursename (df : DataFrame) (numeric_cols : list string)
  (sel : list value) (vars : script_vars) (out4 : list event) :
  step4 df numeric_cols sel = Some (vars, out4) ->
  exists ic, index_of "coursename" (columns df) = Some ic
             /\ columns (var_filtered_df vars) = columns df
             /\ (forall r, In r (rows (var_filtered_df vars)) ->
                           In r (rows df))
             /\ var_numeric_cols vars = numeric_cols.
Proof.
  unfold step4. intros H4.
  destruct (courses df) as [cs|] eqn:Hcs; [|discriminate].
  destruct (filter_courses df sel) as [fdf|] eqn:Hf; [|discriminate].
  destruct (showing sel); [|discriminate]. injection H4 as <- _. simpl.
  destruct (filter_courses_rows_In _ _ _ Hf) as [Hc Hr].
  unfold courses, getitem in Hcs.
  destruct (index_of "coursename" (columns df)) as [ic|]; [|discriminate].
  now exists ic.
Qed.

(** X15. For a raw frame whose labels stay distinct once normalised: when the
    cleaning and the filter have run, the bar charts, the heatmap, the
    scatter plot and the line chart are always produced, and past step 4
    the script can stop only in the pie chart or in the key insights. *)
Theorem charts_after_filter (raw df : DataFrame) (numeric_cols : list string)
  (out23 out4 : list event) (sel : list value) (vars : script_vars) :
  NoDup (map normalize (columns raw)) ->
  steps23 raw = Some (df, numeric_cols, out23) ->
  step4 df numeric_cols sel = Some (vars, out4) ->
  (exists out5, step5 (var_numeric_cols vars) (var_filtered_df vars)
                = Some out5)
  /\ (exists out6, step6 (var_numeric_cols vars) (var_filtered_df vars)
                   = Some out6)
  /\ (forall kind, kind <> PieChart ->
        exists out7, step7 kind (var_numeric_cols vars) (var_filtered_df vars)
                     = Some out7)
  /\ (forall kind,
        dashboard raw sel kind = None ->
        (kind = PieChart
         /\ step7 kind (var_numeric_cols vars) (var_filtered_df vars) = None)
        \/ step8 (var_numeric_cols vars) (var_filtered_df vars) = None).
Proof.
  intros _ H23 H4.
  pose proof (numeric_column_set_invariant _ _ _ _ _ _ _ H23 H4) as Hinv.
  destruct (step4_coursename _ _ _ _ _ H4) as (ic & Hic & Hcols & _ & _).
  rewrite <- Hcols in Hic.
  destruct (charts_defined _ _ ic Hic Hinv) as (H5 & H6 & H7).
  split; [exact H5|]. split; [exact H6|]. split; [exact H7|].
  intros kind Hd. unfold dashboard in Hd. rewrite H23, H4 in Hd.
  destruct H5 as [out5 E5]. destruct H6 as [out6 E6]. rewrite E5, E6 in Hd.
  destruct (step7 kind (var_numeric_cols vars) (var_filtered_df vars))
    as [out7|] eqn:E7.
  - right. now destruct (step8 (var_numeric_cols vars) (var_filtered_df vars)).
  - left. split; trivial.
    destruct kind; trivial; exfalso.
    + destruct (H7 ScatterPlot) as [o Ho]; [discriminate | congruence].
    + destruct (H7 LineChart) as [o Ho]; [discriminate | congruence].
Qed.

(** ** A run with the default selection (lines 20 to 179) *)

Lemma Forall2_In_r {A B : Type} (R : A -> B -> Prop) (l : list A)
  (l' : list B) :
  Forall2 R l l' -> forall y, In y l' -> exists x, In x l /\ R x y.
Proof.
  induction 1 as [|x y l l' Hxy _ IH]; intros z Hz; [inversion Hz|].
  destruct Hz as [<-|Hz].
  - exists x. split; [now left | exact Hxy].
  - destruct (IH z Hz) as (x' & Hin & HR). exists x'. split; [now right|exact HR].
Qed.

Lemma step8_defined (ncols : list string) (fdf : DataFrame) (ic : nat) :
  index_of "coursename" (columns fdf) = Some ic ->
  (forall r, In r (rows fdf) -> is_missing (cell ic r) = false) ->
  (forall col, In col ncols ->
     exists iv, index_of col (columns fdf) = Some iv
                /\ numeric_series (column_at iv fdf)) ->
  exists out8, step8 ncols fdf = Some out8.
Proof.
  intros Hic Hnamed Hinv. unfold step8.
  destruct (empty fdf) eqn:He; simpl; [eauto|].
  assert (Hrow : exists r, In r (rows fdf) /\ is_missing (cell ic r) = false).
  { unfold empty in He. destruct (rows fdf) as [|r l]; [discriminate|].
    exists r. split; [now left|]. apply Hnamed. now left. }
  assert (Htop : forall col, mem col ncols = true ->
                             exists c, top_course fdf col = Some c).
  { intros col Hcol. apply mem_In in Hcol.
    destruct (Hinv col Hcol) as (iv & Hiv & Hnum).
    destruct (top_course_spec fdf col ic iv Hic Hiv Hnum Hrow) as (c & Hc & _).
    now exists c. }
  destruct (mem "sessionsperweek" ncols) eqn:Hs;
    destruct (mem "coursecompletion" ncols) eqn:Hc;
    try (destruct (Htop _ Hs) as [c1 ->]);
    try (destruct (Htop _ Hc) as [c2 ->]); eauto.
Qed.

(** X16. A raw frame whose labels stay distinct once normalised, with a
    course column in which every row names its course by a string, and
    whose known numeric columns hold numbers or missing cells, is cleaned
    without error, and with every course selected, as the selector starts,
    the script runs to its end for the scatter plot and for the line
    chart. *)
Theorem default_run_completes (raw : DataFrame) (ic : nat)
  (kind : chart_kind) :
  NoDup (map normalize (columns raw)) ->
  index_of "coursename" (map normalize (columns raw)) = Some ic ->
  (forall r, In r (rows raw) -> exists s, cell ic r = VStr s) ->
  (forall c j, In c all_numeric_cols ->
               index_of c (map normalize (columns raw)) = Some j ->
               numeric_series (column_at j raw)) ->
  kind <> PieChart ->
  exists df cs out,
    clean raw = Some df
    /\ courses df = Some cs
    /\ dashboard raw cs kind = Some out.
Proof.
  intros _ Hic Hnames Hnum Hkind.
  set (named := clean_column_names raw).
  set (cols := numeric_cols_of named).
  destruct (impute_all_defined cols named) as [before Hb].
  { intros c Hc. apply filter_In in Hc. destruct Hc as [Hc Hin].
    destruct (index_of_mem _ _ Hin) as [j Hj]. exists j. split; trivial.
    exact (Hnum c j Hc Hj). }
  set (df := drop_duplicates before).
  assert (Hclean : clean raw = Some df).
  { unfold clean, imputed. fold named cols. now rewrite Hb. }
  assert (Hcolumns : columns df = map normalize (columns raw))
    by exact (clean_columns _ _ Hclean).
  assert (Hicdf : index_of "coursename" (columns df) = Some ic)
    by now rewrite Hcolumns.
  assert (Hstr : forall r, In r (rows df) -> exists s, cell ic r = VStr s).
  { intros r Hr.
    assert (Hrb : In r (rows before)).
    { eapply Subseq_In; [apply keep_first_Subseq | exact Hr]. }
    destruct (Forall2_In_r _ _ _ (impute_all_filled_from _ _ _ Hb) r Hrb)
      as (r0 & Hr0 & _ & Hcells).
    destruct (Hnames r0 Hr0) as [s Hs].
    destruct (Hcells ic) as [E|[E _]]; [exists s; congruence|].
    rewrite Hs in E. discriminate. }
  set (cs := unique (column_at ic df)).
  assert (Hcs : courses df = Some cs).
  { unfold courses, getitem. now rewrite Hicdf. }
  assert (Hcs_str : forall v, In v cs -> exists s, v = VStr s).
  { intros v Hv.
    assert (Hin : In v (column_at ic df)).
    { eapply Subseq_In; [apply keep_first_Subseq | exact Hv]. }
    unfold column_at in Hin. apply in_map_iff in Hin.
    destruct Hin as (r & <- & Hr). now apply Hstr. }
  assert (Hf : exists fdf, filter_courses df cs = Some fdf).
  { destruct cs as [|c0 cs0] eqn:E; [now exists df|].
    rewrite (filter_courses_rows df ic (c0 :: cs0) Hicdf) by discriminate.
    eauto. }
  destruct Hf as [fdf Hf].
  assert (Hshow : exists text, showing cs = Some text).
  { destruct (showing cs) as [t|] eqn:E; [eauto|].
    apply showing_none in E. destruct E as (v & Hv & Hno).
    destruct (Hcs_str v Hv) as [s ->]. now contradiction (Hno s). }
  destruct Hshow as [text Hshow].
  set (out23 := [Subheader "Dataset Preview"; Dataframe (head named)]).
  assert (H23 : steps23 raw = Some (df, cols, out23)).
  { unfold steps23. fold named cols. now rewrite Hclean. }
  set (vars := mkVars df cols cs cs fdf).
  set (out4 := [Subheader "Filter by Course"; Write text;
                Dataframe (head fdf)]).
  assert (H4 : step4 df cols cs = Some (vars, out4)).
  { unfold step4. now rewrite Hcs, Hf, Hshow. }
  pose proof (numeric_column_set_invariant _ _ _ _ _ _ _ H23 H4) as Hinv.
  destruct (filter_courses_rows_In _ _ _ Hf) as [Hfc Hfr].
  assert (Hicf : index_of "coursename" (columns fdf) = Some ic)
    by now rewrite Hfc.
  simpl in Hinv.
  destruct (charts_defined cols fdf ic Hicf Hinv) as ([o5 H5] & [o6 H6] & H7).
  destruct (H7 kind Hkind) as [o7 E7].
  destruct (step8_defined cols fdf ic Hicf) as [o8 H8]; trivial.
  { intros r Hr. destruct (Hstr r (Hfr r Hr)) as [s ->]. reflexivity. }
  exists df, cs, (out23 ++ out4 ++ o5 ++ o6 ++ o7 ++ o8).
  split; [exact Hclean|]. split; [exact Hcs|].
  unfold dashboard. rewrite H23, H4. simpl.
  now rewrite H5, H6, E7, H8.
Qed.


(** * The further properties at work on the sample frames *)

Lemma numeric_column_set_spec_witness :
  In "quizscore" (numeric_cols_of (clean_column_names sample_raw))
  /\ ~ In "coursename" (numeric_cols_of (clean_column_names sample_raw)).
Proof.
  destruct (numeric_column_set_spec sample_raw) as (H & _ & _). split.
  - apply H. split; [simpl; tauto|].
    exists "QuizScore ". split; [simpl; tauto | reflexivity].
  - intros Hc. apply H in Hc. destruct Hc as [Hc _].
    simpl in Hc. intuition discriminate.
Defined.

Lemma imputation_only_fills_missing_witness :
  exists before,
    imputed sample_raw = Some before
    /\ length (rows before) = 5%nat
    /\ Forall2 (filled_from (columns before)
                  (numeric_cols_of (clean_column_names sample_raw)))
         (rows sample_raw) (rows before).
Proof.
  eexists. split; [reflexivity|].
  split; [reflexivity|].
  apply (imputation_only_fills_missing sample_raw). reflexivity.
Defined.

Lemma string_in_numeric_column_stops_witness :
  clean text_score_frame = None
  /\ dashboard text_score_frame [] ScatterPlot = None.
Proof.
  destruct (string_in_numeric_column_stops text_score_frame "quizscore" "n/a" 1)
    as [Hc Hd].
  - simpl. tauto.
  - reflexivity.
  - simpl. tauto.
  - split; [exact Hc | apply Hd].
Defined.

Lemma clean_idempotent_witness :
  exists df, clean sample_raw = Some df /\ clean df = Some df.
Proof.
  eexists. split; [reflexivity|].
  apply (clean_idempotent sample_raw). reflexivity.
Defined.

Lemma missing_coursename_stops_witness :
  dashboard no_course_frame [] ScatterPlot = None.
Proof. apply missing_coursename_stops. reflexivity. Defined.


Lemma selection_without_match_witness :
  exists fdf,
    filter_courses sample_df [VStr "Z"] = Some fdf
    /\ rows fdf = []
    /\ step8 ["sessionsperweek"] fdf = Some [Warning no_data].
Proof.
  destruct (selection_without_match sample_df [VStr "Z"] ["sessionsperweek"] 0
              eq_refl) as (fdf & Hf & _ & Hr & _ & H8).
  - discriminate.
  - intros c [<-|[]] Hin. apply InA_alt in Hin.
    destruct Hin as (y & Hy & Hin). simpl in Hin.
    destruct Hin as [<-|[<-|[<-|[<-|[]]]]]; inversion Hy.
  - now exists fdf.
Defined.

Lemma showing_spec_witness :
  showing [VStr "A"; VStr "B"] = Some "Showing data for: A, B"
  /\ showing [VStr "A"; VNaN] = None
  /\ dashboard sample_raw [VStr "A"; VNaN] ScatterPlot = None.
Proof.
  destruct showing_spec as (H1 & H2 & H3). split; [|split].
  - exact (H1 "A" ["B"]).
  - apply H2. exists VNaN. split; [simpl; tauto | discriminate].
  - apply (H3 _ _ _ VNaN); [simpl; tauto | discriminate].
Defined.

Lemma filter_courses_compose_witness :
  exists f1 f12,
    filter_courses sample_df [VStr "A"; VStr "B"] = Some f1
    /\ filter_courses f1 [VStr "B"; VStr "C"] = Some f12
    /\ filter_courses f1 [VStr "A"; VStr "B"] = Some f1
    /\ length (rows f12) = 2%nat.
Proof.
  destruct (filter_courses_compose sample_df 0 eq_refl) as [Hid Hcomp].
  eexists. eexists.
  split; [reflexivity|]. split; [reflexivity|]. split.
  - apply Hid. reflexivity.
  - destruct (Hcomp [VStr "A"; VStr "B"] [VStr "B"; VStr "C"] _ _
                ltac:(discriminate) ltac:(discriminate) eq_refl eq_refl)
      as [Hrows _].
    rewrite Hrows. reflexivity.
Defined.

Lemma top_course_is_first_bar_witness :
  exists m rest,
    aggregate sample_df "sessionsperweek" = Some ((VStr "B", VNum m) :: rest)
    /\ top_course sample_df "sessionsperweek" = Some (VStr "B").
Proof.
  destruct (top_course_is_first_bar sample_df "sessionsperweek"
              [(VStr "B", VNum (10 # 2)); (VStr "C", VNum 4);
               (VStr "A", VNum 2)] (VStr "B") eq_refl eq_refl)
    as (m & rest & E).
  - exists (VStr "A", VNum 2). split; [simpl; tauto | reflexivity].
  - intros m c' m' Hm Hc' Heq. simpl in Hm, Hc'.
    destruct Hm as [Hm|[Hm|[Hm|[]]]]; try discriminate. injection Hm as <-.
    destruct Hc' as [Hc'|[Hc'|[Hc'|[]]]]; injection Hc' as <- <-;
      [reflexivity | discriminate | discriminate].
  - exists m, rest. split; [|reflexivity].
    transitivity (Some [(VStr "B", VNum (10 # 2)); (VStr "C", VNum 4);
                        (VStr "A", VNum 2)]); [reflexivity | now rewrite E].
Defined.

Lemma top_course_tie_break_witness :
  top_course tie_frame "sessionsperweek" = Some (VStr "A")
  /\ exists m,
       In (VStr "A", VNum m)
         [(VStr "A", VNum 1); (VStr "B", VNum 1)]
       /\ forall c' m',
            In (c', VNum m') [(VStr "A", VNum 1); (VStr "B", VNum 1)] ->
            m' <= m.
Proof.
  split; [reflexivity|].
  destruct (top_course_tie_break tie_frame "sessionsperweek"
              [(VStr "A", VNum 1); (VStr "B", VNum 1)] (VStr "A")
              eq_refl eq_refl) as (m & Hin & Hmax & _).
  - exists (VStr "A", VNum 1). split; [simpl; tauto | reflexivity].
  - now exists m.
Defined.

Lemma pie_fills_disc_witness :
  exists wedges,
    pie_chart sample_df = Some (Pie wedges)
    /\ Qsum (map wedge_frac wedges) == 1
    /\ length wedges = 3%nat.
Proof.
  eexists. split; [reflexivity|]. split; [|reflexivity].
  eapply (pie_fills_disc sample_df); [reflexivity | discriminate].
Defined.

Lemma line_chart_partitions_points_witness :
  exists points lines,
    scatter_plot sample_df = Some (Scatter points)
    /\ line_chart sample_df = Some (Line lines)
    /\ length points = 4%nat
    /\ map fst lines = [VStr "B"; VStr "A"; VStr "C"].
Proof.
  eexists. eexists.
  split; [reflexivity|]. split; [reflexivity|].
  split; [reflexivity|].
  etransitivity;
    [eapply (line_chart_partitions_points sample_df); reflexivity|].
  reflexivity.
Defined.

Lemma charts_after_filter_witness :
  exists out5 out6,
    (exists df ncols out23 vars out4,
        steps23 sample_raw = Some (df, ncols, out23)
        /\ step4 df ncols [VStr "A"] = Some (vars, out4)
        /\ step5 (var_numeric_cols vars) (var_filtered_df vars) = Some out5
        /\ step6 (var_numeric_cols vars) (var_filtered_df vars) = Some out6)
    /\ length out5 = 4%nat /\ length out6 = 2%nat.
Proof.
  lazymatch eval vm_compute in (steps23 sample_raw) with
  | Some (?d, ?n, ?o) =>
      lazymatch eval vm_compute in (step4 d n [VStr "A"]) with
      | Some (?v, ?o4) =>
          pose proof (charts_after_filter sample_raw d n o o4 [VStr "A"] v
                        sample_raw_labels eq_refl eq_refl) as H;
          destruct H as ([out5 H5] & [out6 H6] & _);
          exists out5, out6; split;
          [exists d, n, o, v, o4;
           split; [reflexivity|]; split; [reflexivity|];
           split; [exact H5 | exact H6]|];
          split;
          [assert (E : Some out5 = step5 (var_numeric_cols v)
                                     (var_filtered_df v)) by (now rewrite H5);
           vm_compute in E; injection E as ->; reflexivity
          |assert (E : Some out6 = step6 (var_numeric_cols v)
                                     (var_filtered_df v)) by (now rewrite H6);
           vm_compute in E; injection E as ->; reflexivity]
      end
  end.
Defined.

Lemma default_run_completes_witness :
  exists df cs out,
    clean sample_raw = Some df
    /\ courses df = Some cs
    /\ dashboard sample_raw cs LineChart = Some out.
Proof.
  apply (default_run_completes sample_raw 0 LineChart).
  - exact sample_raw_labels.
  - reflexivity.
  - intros r Hr. simpl in Hr.
    destruct Hr as [<-|[<-|[<-|[<-|[<-|[]]]]]]; eexists; reflexivity.
  - exact sample_raw_numeric.
  - discriminate.
Defined.
